(** * SectionList: an AVL tree of runs of equal-sized sections

    A shallow embedding of [src/index.ts] (phosphor-sectionlist) and the
    properties of its specification.

    Numbers.  The source works on JavaScript numbers.  Counts, indices and
    levels are integers there (the facade floors them) and are modelled by
    [Z]; sizes and offsets are modelled by exact rationals [Q], the
    "real-valued" reading the specification gives them.  Rounding of
    IEEE doubles, [NaN] and the infinities are outside this model.

    Failure.  A read through a [null] child throws in the source; the
    functions that can do so return [option], with [None] for the throw.
    The [do ... while] of [remove] is given fuel, and [None] also stands for
    fuel that ran out. *)

From Stdlib Require Import ZArith QArith Qround Qminmax Qreduction.
From Stdlib Require Import List Bool Lia Lqa.
Import ListNotations.

Open Scope Z_scope.

(** ** The error monad of the structural algorithms *)

Definition bind {A B : Type} (m : option A) (k : A -> option B) : option B :=
  match m with
  | Some a => k a
  | None => None
  end.

Notation "x <- m ;; k" := (bind m (fun x => k))
  (at level 61, m at next level, right associativity).
Notation "' p <- m ;; k" := (bind m (fun p => k))
  (at level 61, p pattern, m at next level, right associativity).

(** ** ISpan: the node type *)

Module Span.

(** A leaf has [level = 0] and no children; a branch stores its aggregates
    and owns two children.  The source tells the two apart by
    [span.level === 0]; here that test is the constructor. *)
Inductive ISpan : Type :=
| Leaf (count : Z) (size : Q)
| Branch (count : Z) (size : Q) (level : Z) (left right : ISpan).

Definition count (span : ISpan) : Z :=
  match span with
  | Leaf c _ => c
  | Branch c _ _ _ _ => c
  end.

Definition size (span : ISpan) : Q :=
  match span with
  | Leaf _ s => s
  | Branch _ s _ _ _ => s
  end.

Definition level (span : ISpan) : Z :=
  match span with
  | Leaf _ _ => 0
  | Branch _ _ lv _ _ => lv
  end.

Definition createLeaf (cnt : Z) (sz : Q) : ISpan := Leaf cnt sz.

Definition createBranch (l r : ISpan) : ISpan :=
  Branch (count l + count r) (size l + size r)
         (Z.max (level l) (level r) + 1) l r.

(** [updateBranch] overwrites every field of [span]; the tree is unshared,
    so the node written to is not observable and the result is the new
    branch. *)
Definition updateBranch (span l r : ISpan) : ISpan :=
  Branch (count l + count r) (size l + size r)
         (Z.max (level l) (level r) + 1) l r.

(** ** Queries *)

(** The three queries are loops down the tree with mutable locals; each is a
    recursion that carries the locals.  In [indexOf] the source divides by
    the size of the leaf it ends in; the test of the facade keeps the offset
    below the size of the span all the way down, so that leaf has a positive
    size (for a leaf of size 0 the source would compute [NaN], and [Q] gives
    0). *)
Fixpoint indexOf_loop (span : ISpan) (index : Z) (offset : Q) : Z :=
  match span with
  | Leaf c s => index + Qfloor (offset * inject_Z c / s)
  | Branch _ _ _ l r =>
      if Qlt_le_dec offset (size l)
      then indexOf_loop l index offset
      else indexOf_loop r (index + count l) (offset - size l)
  end.

Definition indexOf (span : ISpan) (offset : Q) : Z :=
  indexOf_loop span 0 offset.

Fixpoint offsetOf_loop (span : ISpan) (index : Z) (offset : Q) : Q :=
  match span with
  | Leaf c s => offset + inject_Z index * s / inject_Z c
  | Branch _ _ _ l r =>
      if index <? count l
      then offsetOf_loop l index offset
      else offsetOf_loop r (index - count l) (offset + size l)
  end.

Definition offsetOf (span : ISpan) (index : Z) : Q :=
  offsetOf_loop span index 0.

Fixpoint sizeOf (span : ISpan) (index : Z) : Q :=
  match span with
  | Leaf c s => s / inject_Z c
  | Branch _ _ _ l r =>
      if index <? count l
      then sizeOf l index
      else sizeOf r (index - count l)
  end.

(** ** Rebalance *)

Definition rebalance (span : ISpan) : option ISpan :=
  match span with
  | Leaf _ _ => None
  | Branch _ _ _ l r =>
      let balance := level l - level r in
      if balance >? 1 then
        match l with
        | Leaf _ _ => None
        | Branch _ _ _ subLeft subRight =>
            if level subLeft >? level subRight then
              (* Left-Left *)
              Some (updateBranch span subLeft
                      (updateBranch l subRight r))
            else
              (* Left-Right *)
              match subRight with
              | Leaf _ _ => None
              | Branch _ _ _ srl srr =>
                  Some (updateBranch span
                          (updateBranch l subLeft srl)
                          (updateBranch subRight srr r))
              end
        end
      else if balance <? -1 then
        match r with
        | Leaf _ _ => None
        | Branch _ _ _ subLeft subRight =>
            if level subRight >? level subLeft then
              (* Right-Right *)
              Some (updateBranch span
                      (updateBranch r l subLeft) subRight)
            else
              (* Right-Left *)
              match subLeft with
              | Leaf _ _ => None
              | Branch _ _ _ sll slr =>
                  Some (updateBranch span
                          (updateBranch subLeft l sll)
                          (updateBranch r slr subRight))
              end
        end
      else Some (updateBranch span l r)
  end.

(** ** Insert *)

Fixpoint insert (span : ISpan) (index cnt : Z) (sz : Q) : option ISpan :=
  match span with
  | Leaf c s =>
      if Qeq_bool sz (s / inject_Z c) then
        Some (Leaf (c + cnt) (s + inject_Z cnt * sz))
      else if index =? 0 then
        Some (createBranch (createLeaf cnt (inject_Z cnt * sz)) span)
      else if index >=? c then
        Some (createBranch span (createLeaf cnt (inject_Z cnt * sz)))
      else
        let rest := c - index in
        let each := (s / inject_Z c)%Q in
        let subLeft := createLeaf cnt (inject_Z cnt * sz) in
        let subRight := createLeaf rest (inject_Z rest * each) in
        let newLeft := createLeaf index (inject_Z index * each) in
        let newRight := createBranch subLeft subRight in
        Some (updateBranch span newLeft newRight)
  | Branch c s lv l r =>
      if index <? count l then
        l' <- insert l index cnt sz ;;
        rebalance (Branch c s lv l' r)
      else
        r' <- insert r (index - count l) cnt sz ;;
        rebalance (Branch c s lv l r')
  end.

(** ** Remove *)

(** The balance factor read by the loop test of [remove]. *)
Definition balanceOf (span : ISpan) : option Z :=
  match span with
  | Leaf _ _ => None
  | Branch _ _ _ l r => Some (level l - level r)
  end.

(** [do { span = rebalance(span); } while (abs(balance) > 1)], with fuel. *)
Fixpoint rebalanceLoop (fuel : nat) (span : ISpan) : option ISpan :=
  match fuel with
  | O => None
  | S fuel' =>
      span' <- rebalance span ;;
      b <- balanceOf span' ;;
      if Z.abs b >? 1 then rebalanceLoop fuel' span' else Some span'
  end.

(** The result [Some None] is the source's [null]: the whole span is gone. *)
Fixpoint remove (fuel : nat) (span : ISpan) (index cnt : Z)
  : option (option ISpan) :=
  if cnt =? count span then Some None else
  match span with
  | Leaf c s =>
      let rest := c - cnt in
      let each := (s / inject_Z c)%Q in
      Some (Some (Leaf rest (inject_Z rest * each)))
  | Branch c s lv l r =>
      '(l', r') <-
        (if (index <? count l) && (index + cnt >? count l) then
           let tail := count l - index in
           l' <- remove fuel l index tail ;;
           r' <- remove fuel r 0 (cnt - tail) ;;
           Some (l', r')
         else if index <? count l then
           l' <- remove fuel l index cnt ;;
           Some (l', Some r)
         else
           r' <- remove fuel r (index - count l) cnt ;;
           Some (Some l, r')) ;;
      span' <-
        match l', r' with
        | None, None => None
        | None, Some r' => Some r'
        | Some l', None => Some l'
        | Some l', Some r' => Some (Branch c s lv l' r')
        end ;;
      if level span' >? 0 then
        span'' <- rebalanceLoop fuel span' ;;
        Some (Some span'')
      else Some (Some span')
  end.

End Span.

(** ** The facade *)

Module SectionList.

(** The state of a list is its [_root]; [None] is [null]. *)
Definition t : Type := option Span.ISpan.

Definition empty : t := None.

Definition count (root : t) : Z :=
  match root with
  | Some r => Span.count r
  | None => 0
  end.

Definition size (root : t) : Q :=
  match root with
  | Some r => Span.size r
  | None => 0
  end.

Definition indexOf (root : t) (offset : Q) : Z :=
  match root with
  | None => -1
  | Some r =>
      if Qlt_le_dec offset 0 then -1
      else if Qlt_le_dec offset (size (Some r)) then Span.indexOf r offset
      else -1
  end.

Definition offsetOf (root : t) (index : Q) : Q :=
  match root with
  | None => -1
  | Some r =>
      let i := Qfloor index in
      if (i <? 0) || (i >=? count (Some r)) then -1
      else Span.offsetOf r i
  end.

Definition sizeOf (root : t) (index : Q) : Q :=
  match root with
  | None => -1
  | Some r =>
      let i := Qfloor index in
      if (i <? 0) || (i >=? count (Some r)) then -1
      else Span.sizeOf r i
  end.

Definition insert (root : t) (index cnt sz : Q) : option (t * Z) :=
  let ct := Qfloor cnt in
  if ct <=? 0 then Some (root, -1) else
  match root with
  | None => Some (Some (Span.createLeaf ct (inject_Z ct * Qmax 0 sz)), 0)
  | Some r =>
      let i := Z.max 0 (Z.min (Qfloor index) (count (Some r))) in
      r' <- Span.insert r i ct (Qmax 0 sz) ;;
      Some (Some r', i)
  end.

Definition remove (fuel : nat) (root : t) (index cnt : Q)
  : option (t * Z) :=
  match root with
  | None => Some (root, 0)
  | Some r =>
      let ct := Qfloor cnt in
      if ct <=? 0 then Some (root, 0) else
      let s := Qfloor index in
      let i := Z.max 0 s in
      let j := Z.min (s + ct - 1) (count (Some r) - 1) in
      let n := j - i + 1 in
      if n <=? 0 then Some (root, 0) else
      r' <- Span.remove fuel r i n ;;
      Some (r', n)
  end.

Definition resize (fuel : nat) (root : t) (index cnt sz : Q)
  : option (t * Z) :=
  match root with
  | None => Some (root, 0)
  | Some r =>
      let ct := Qfloor cnt in
      if ct <=? 0 then Some (root, 0) else
      let s := Qfloor index in
      let i := Z.max 0 s in
      let j := Z.min (s + ct - 1) (count (Some r) - 1) in
      let n := j - i + 1 in
      if n <=? 0 then Some (root, 0) else
      r' <- Span.remove fuel r i n ;;
      match r' with
      | None => Some (Some (Span.createLeaf n (inject_Z n * Qmax 0 sz)), n)
      | Some r'' =>
          r''' <- Span.insert r'' i n (Qmax 0 sz) ;;
          Some (Some r''', n)
      end
  end.

End SectionList.

Import Span.

(** ** Invariants and observations *)

(** The data-model invariants 1 and 2: a leaf holds at least one section of
    non-negative size, and the aggregates of a branch are those of its
    children. *)
Fixpoint wf (span : ISpan) : Prop :=
  match span with
  | Leaf c s => 0 < c /\ (0 <= s)%Q
  | Branch c s lv l r =>
      c = count l + count r /\
      (s == size l + size r)%Q /\
      lv = Z.max (level l) (level r) + 1 /\
      wf l /\ wf r
  end.

Definition wf_list (root : SectionList.t) : Prop :=
  match root with
  | Some r => wf r
  | None => True
  end.

(** The exit test of the loop of [remove]: [|left.level - right.level| <= 1]
    at the root.  A leaf has no children to compare. *)
Definition rootBalanced (span : ISpan) : bool :=
  match span with
  | Leaf _ _ => true
  | Branch _ _ _ l r => Z.abs (level l - level r) <=? 1
  end.

(** Invariant 3, checked recursively from the root. *)
Fixpoint balanced (span : ISpan) : bool :=
  match span with
  | Leaf _ _ => true
  | Branch _ _ _ l r => rootBalanced span && balanced l && balanced r
  end.

Definition balanced_list (root : SectionList.t) : bool :=
  match root with
  | Some r => balanced r
  | None => true
  end.

(** The in-order sequence of sections: one entry per section, its size as a
    reduced fraction. *)
Fixpoint sections (span : ISpan) : list Q :=
  match span with
  | Leaf c s => repeat (Qred (s / inject_Z c)) (Z.to_nat c)
  | Branch _ _ _ l r => sections l ++ sections r
  end.

Definition sections_list (root : SectionList.t) : list Q :=
  match root with
  | Some r => sections r
  | None => []
  end.


(** A branch that [rebalance] would answer with a double rotation. *)
Definition doubleCase (span : ISpan) : bool :=
  match span with
  | Leaf _ _ => false
  | Branch _ _ _ l r =>
      if level l - level r >? 1 then
        match l with
        | Leaf _ _ => false
        | Branch _ _ _ subLeft subRight =>
            negb (level subLeft >? level subRight)
        end
      else if level l - level r <? -1 then
        match r with
        | Leaf _ _ => false
        | Branch _ _ _ subLeft subRight =>
            negb (level subRight >? level subLeft)
        end
      else false
  end.

(** The measure that bounds the passes of the loop of [remove]. *)
Definition potential (span : ISpan) : Z :=
  2 * level span + (if doubleCase span then 1 else 0).

(** Fuel that is enough for [remove] on a span of the given level. *)
Definition enough (fuel : nat) (span : ISpan) : Prop :=
  2 * level span + 1 < Z.of_nat fuel.

Definition enough_list (fuel : nat) (root : SectionList.t) : Prop :=
  match root with
  | Some r => enough fuel r
  | None => True
  end.

(** The states a list can be in: what the three editing operations make of
    the empty list. *)
Inductive reachable : SectionList.t -> Prop :=
| reachable_empty : reachable SectionList.empty
| reachable_insert st index cnt sz st' i :
    reachable st ->
    SectionList.insert st index cnt sz = Some (st', i) ->
    reachable st'
| reachable_remove st fuel index cnt st' n :
    reachable st ->
    SectionList.remove fuel st index cnt = Some (st', n) ->
    reachable st'
| reachable_resize st fuel index cnt sz st' n :
    reachable st ->
    SectionList.resize fuel st index cnt sz = Some (st', n) ->
    reachable st'.

(** ** Lists of sections: the edits as the specification words them *)

(** [ys] placed before position [i] of [xs]. *)
Definition insertAt (i : Z) (ys xs : list Q) : list Q :=
  firstn (Z.to_nat i) xs ++ ys ++ skipn (Z.to_nat i) xs.

(** [xs] without its [n] entries from position [i] on. *)
Definition removeRange (i n : Z) (xs : list Q) : list Q :=
  firstn (Z.to_nat i) xs ++ skipn (Z.to_nat (i + n)) xs.

Definition len (xs : list Q) : Z := Z.of_nat (length xs).

(** Every level of a present span is below [B]. *)
Definition level_below (B : Z) (o : option ISpan) : Prop :=
  match o with
  | Some s => level s < B
  | None => True
  end.

(** The index at which the facade inserts: [floor(index)] clamped into
    [[0, count]]. *)
Definition clampIndex (root : SectionList.t) (index : Q) : Z :=
  Z.max 0 (Z.min (Qfloor index) (SectionList.count root)).

(** The first index the facade removes from. *)
Definition startIndex (index : Q) : Z := Z.max 0 (Qfloor index).

(** The number of sections of the requested range that lie in the list. *)
Definition actualCount (root : SectionList.t) (index cnt : Q) : Z :=
  Z.max 0 (Z.min (Qfloor index + Qfloor cnt - 1) (SectionList.count root - 1)
           - Z.max 0 (Qfloor index) + 1).

(** [resize] as the specification words it: [remove], then [insert] of the
    number of sections that [remove] returned, at the first removed index
    and with the new size. *)
Definition resizeSpec (fuel : nat) (root : SectionList.t) (index cnt sz : Q)
  : option (SectionList.t * Z) :=
  '(st1, n) <- SectionList.remove fuel root index cnt ;;
  '(st2, _) <- SectionList.insert st1 (inject_Z (startIndex index))
                 (inject_Z n) sz ;;
  Some (st2, n).

Definition rootBalanced_list (root : SectionList.t) : bool :=
  match root with
  | Some r => rootBalanced r
  | None => true
  end.

(** ** Sequences of edits *)

Inductive edit : Type :=
| Insert (index cnt sz : Q)
| Remove (index cnt : Q)
| Resize (index cnt sz : Q).

Definition apply (fuel : nat) (root : SectionList.t) (e : edit)
  : option SectionList.t :=
  match e with
  | Insert index cnt sz =>
      '(st, _) <- SectionList.insert root index cnt sz ;; Some st
  | Remove index cnt =>
      '(st, _) <- SectionList.remove fuel root index cnt ;; Some st
  | Resize index cnt sz =>
      '(st, _) <- SectionList.resize fuel root index cnt sz ;; Some st
  end.

(** The edits [es] applied in turn, starting from [root]. *)
Fixpoint run (fuel : nat) (es : list edit) (root : SectionList.t)
  : option SectionList.t :=
  match es with
  | [] => Some root
  | e :: es' => st <- apply fuel root e ;; run fuel es' st
  end.

(** The list the edits [es] make of the empty list. *)
Definition listOf (fuel : nat) (es : list edit) : SectionList.t :=
  match run fuel es SectionList.empty with
  | Some st => st
  | None => SectionList.empty
  end.

(** ** Sample lists *)

(** Five sections of size 10. *)
Definition uniformList : SectionList.t := listOf 0 [Insert 0 5 10].


(** Twelve sections in eight leaves, every branch balanced:
    sizes 3, 4, 2, 4, 1, 1, 1, 3, 4, 3, 3, 4. *)
Definition mixedEdits : list edit :=
  [Insert 0 3 4; Insert 1 1 2; Insert 3 3 3; Insert 4 1 4; Insert 0 1 3;
   Insert 4 3 1].

Definition mixedList : SectionList.t := listOf 0 mixedEdits.

(** [mixedList] after [remove(10, 2)]. *)
Definition lopsidedList : SectionList.t :=
  listOf 10 (mixedEdits ++ [Remove 10 2]).

(** ** Further observations *)





(** Invariant 3 as a proposition. *)
Fixpoint Balanced (span : ISpan) : Prop :=
  match span with
  | Leaf _ _ => True
  | Branch _ _ _ l r =>
      Z.abs (level l - level r) <= 1 /\ Balanced l /\ Balanced r
  end.

(** The two children of a span have the same level. *)
Definition evenTop (span : ISpan) : Prop :=
  match span with
  | Leaf _ _ => True
  | Branch _ _ _ l r => level l = level r
  end.

Definition evenBelow (span : ISpan) : Prop :=
  match span with
  | Leaf _ _ => True
  | Branch _ _ _ l r => evenTop l /\ evenTop r
  end.

(** What [insert] makes of a balanced span of level [h]: a balanced span, at
    most one level higher; when it is higher and its children are level,
    theirs are too. *)
Definition grownFrom (h : Z) (span : ISpan) : Prop :=
  wf span /\ Balanced span /\
  h <= level span <= h + 1 /\
  (level span = h + 1 -> evenTop span -> evenBelow span).

(** What the split of a leaf makes: a leaf beside a branch of two leaves. *)
Definition splitLeaf (span : ISpan) : Prop :=
  wf span /\ Balanced span /\
  match span with
  | Leaf _ _ => False
  | Branch _ _ _ l r => level l = 0 /\ level r = 1
  end.

Definition isInsert (e : edit) : bool :=
  match e with
  | Insert _ _ _ => true
  | _ => false
  end.

(** * Proofs *)

(** ** Basic facts about well-formed spans *)

Lemma wf_count_pos span : wf span -> 0 < count span.
Proof.
  induction span as [c s | c s lv l IHl r IHr]; simpl.
  - tauto.
  - intros (-> & _ & _ & Hl & Hr).
    specialize (IHl Hl). specialize (IHr Hr). lia.
Qed.

Lemma wf_level_nonneg span : wf span -> 0 <= level span.
Proof.
  induction span as [c s | c s lv l IHl r IHr]; simpl.
  - lia.
  - intros (_ & _ & -> & Hl & Hr). specialize (IHl Hl). lia.
Qed.

Lemma wf_size_nonneg span : wf span -> (0 <= size span)%Q.
Proof.
  induction span as [c s | c s lv l IHl r IHr]; simpl.
  - tauto.
  - intros (_ & Hs & _ & Hl & Hr). specialize (IHl Hl). specialize (IHr Hr).
    rewrite Hs. lra.
Qed.

Lemma wf_updateBranch span l r : wf l -> wf r -> wf (updateBranch span l r).
Proof. intros Hl Hr. simpl. repeat split; auto; reflexivity. Qed.

Lemma wf_createBranch l r : wf l -> wf r -> wf (createBranch l r).
Proof. intros Hl Hr. simpl. repeat split; auto; reflexivity. Qed.

Lemma length_sections span :
  wf span -> length (sections span) = Z.to_nat (count span).
Proof.
  induction span as [c s | c s lv l IHl r IHr]; simpl.
  - intros _. apply repeat_length.
  - intros (-> & _ & _ & Hl & Hr).
    rewrite length_app, IHl, IHr by assumption.
    pose proof (wf_count_pos _ Hl). pose proof (wf_count_pos _ Hr). lia.
Qed.

Lemma wf_branch_inv c s lv l r :
  wf (Branch c s lv l r) ->
  c = count l + count r /\ (s == size l + size r)%Q /\
  lv = Z.max (level l) (level r) + 1 /\ wf l /\ wf r.
Proof. intro H. exact H. Qed.

(** Destructs the well-formedness hypotheses of branches in the context. *)
Ltac wf_inv :=
  repeat match goal with
    | H : wf (Branch _ _ _ _ _) |- _ =>
        let Hc := fresh "Hc" in let Hs := fresh "Hs" in
        let Hlv := fresh "Hlv" in let Hl := fresh "Hwl" in
        let Hr := fresh "Hwr" in
        apply wf_branch_inv in H; destruct H as (Hc & Hs & Hlv & Hl & Hr)
    end.

(** Records that the level of every well-formed span in the context is
    non-negative. *)
Ltac wf_levels :=
  repeat match goal with
    | H : wf ?s |- _ =>
        lazymatch goal with
        | _ : 0 <= level s |- _ => fail
        | _ => pose proof (wf_level_nonneg s H)
        end
    end.

(** ** Rebalance *)

(** On well-formed children [rebalance] does not throw, whatever the stale
    fields of the branch; its result is a well-formed branch over the same
    sections, and no higher than a fresh branch over the children. *)
Lemma rebalance_spec c s lv l r :
  wf l -> wf r ->
  exists c' s' lv' l' r',
    rebalance (Branch c s lv l r) = Some (Branch c' s' lv' l' r') /\
    wf (Branch c' s' lv' l' r') /\
    sections l' ++ sections r' = sections l ++ sections r /\
    c' = count l + count r /\
    lv' <= Z.max (level l) (level r) + 1.
Proof.
  intros Hl Hr. unfold rebalance.
  destruct (level l - level r >? 1) eqn:Hgt.
  - destruct l as [lc ls | lc ls llv a x];
      [simpl in Hgt; wf_levels; simpl in *; lia|].
    destruct (level a >? level x) eqn:Hax.
    + do 5 eexists. split; [reflexivity|]. wf_inv. wf_levels.
      split; [repeat apply wf_updateBranch; auto|].
      simpl in *. repeat split; try lia; now rewrite <- ?app_assoc.
    + destruct x as [xc xs | xc xs xlv b d].
      { wf_inv. wf_levels. simpl in *. lia. }
      do 5 eexists. split; [reflexivity|]. wf_inv. wf_levels.
      split; [repeat apply wf_updateBranch; auto|].
      simpl in *. repeat split; try lia; now rewrite <- ?app_assoc.
  - destruct (level l - level r <? -1) eqn:Hlt.
    + destruct r as [rc rs | rc rs rlv x d];
        [simpl in Hlt; wf_levels; simpl in *; lia|].
      destruct (level d >? level x) eqn:Hdx.
      * do 5 eexists. split; [reflexivity|]. wf_inv. wf_levels.
        split; [repeat apply wf_updateBranch; auto|].
        simpl in *. repeat split; try lia; now rewrite <- ?app_assoc.
      * destruct x as [xc xs | xc xs xlv b e].
        { wf_inv. wf_levels. simpl in *. lia. }
        do 5 eexists. split; [reflexivity|]. wf_inv. wf_levels.
        split; [repeat apply wf_updateBranch; auto|].
        simpl in *. repeat split; try lia; now rewrite <- ?app_assoc.
    + do 5 eexists. split; [reflexivity|].
      split; [repeat apply wf_updateBranch; auto|].
      simpl. repeat split; lia.
Qed.

(** ** The loop of [remove] ends *)

(** Case analysis on the innermost tests of the goal and the context. *)
Ltac split_if_on b :=
  lazymatch b with
  | context [if _ then _ else _] => fail
  | _ => destruct b eqn:?
  end.

Ltac split_ifs :=
  repeat match goal with
    | |- context [if ?b then _ else _] => split_if_on b
    | H : context [if ?b then _ else _] |- _ => split_if_on b
    end.

(** A pass that leaves the root unbalanced lowers [potential]: a single
    rotation lowers the level, and a double rotation that keeps the level
    is followed by a single one. *)
Lemma rebalance_progress c s lv l r T :
  wf l -> wf r ->
  rebalance (Branch c s lv l r) = Some T ->
  rootBalanced T = false ->
  potential T < potential (createBranch l r).
Proof.
  intros Hl Hr. unfold rebalance.
  destruct (level l - level r >? 1) eqn:Hgt.
  - destruct l as [lc ls | lc ls llv a x]; [discriminate|].
    destruct (level a >? level x) eqn:Hax.
    + intros [= <-] Hunb. wf_inv. wf_levels.
      unfold potential, doubleCase, createBranch, updateBranch in *.
      cbn [level rootBalanced] in *. rewrite Hgt, Hax. cbn [negb].
      destruct x, r; wf_inv; wf_levels; cbn [level] in *; split_ifs;
        cbn [negb] in *; lia.
    + destruct x as [xc xs | xc xs xlv b d]; [discriminate|].
      intros [= <-] Hunb. wf_inv. wf_levels.
      unfold potential, doubleCase, createBranch, updateBranch in *.
      cbn [level rootBalanced] in *. rewrite Hgt, Hax. cbn [negb].
      split_ifs; cbn [negb] in *; lia.
  - destruct (level l - level r <? -1) eqn:Hlt.
    + destruct r as [rc rs | rc rs rlv x d]; [discriminate|].
      destruct (level d >? level x) eqn:Hdx.
      * intros [= <-] Hunb. wf_inv. wf_levels.
        unfold potential, doubleCase, createBranch, updateBranch in *.
        cbn [level rootBalanced] in *. rewrite Hgt, Hlt, Hdx. cbn [negb].
        destruct x, l; wf_inv; wf_levels; cbn [level] in *; split_ifs;
          cbn [negb] in *; lia.
      * destruct x as [xc xs | xc xs xlv b e]; [discriminate|].
        intros [= <-] Hunb. wf_inv. wf_levels.
        unfold potential, doubleCase, createBranch, updateBranch in *.
        cbn [level rootBalanced] in *. rewrite Hgt, Hlt, Hdx. cbn [negb].
        split_ifs; cbn [negb] in *; lia.
    + intros [= <-] Hunb. simpl in Hunb. lia.
Qed.

Lemma potential_stale c s lv l r :
  wf (Branch c s lv l r) ->
  potential (Branch c s lv l r) = potential (createBranch l r).
Proof. intros H. wf_inv. unfold potential. simpl. subst lv. reflexivity. Qed.

Lemma potential_bound span : potential span <= 2 * level span + 1.
Proof. unfold potential. destruct (doubleCase span); lia. Qed.

(** The loop of [remove] ends: each pass that does not leave the loop
    lowers [potential]. *)
Lemma rebalanceLoop_spec fuel : forall c s lv l r,
  wf l -> wf r ->
  potential (createBranch l r) < Z.of_nat fuel ->
  exists c' s' lv' l' r',
    rebalanceLoop fuel (Branch c s lv l r) = Some (Branch c' s' lv' l' r') /\
    wf (Branch c' s' lv' l' r') /\
    rootBalanced (Branch c' s' lv' l' r') = true /\
    sections l' ++ sections r' = sections l ++ sections r /\
    c' = count l + count r /\
    lv' <= Z.max (level l) (level r) + 1.
Proof.
  induction fuel as [|fuel IH]; intros c s lv l r Hl Hr Hpot.
  - pose proof (wf_level_nonneg _ (wf_createBranch l r Hl Hr)).
    unfold potential in Hpot. destruct (doubleCase _); lia.
  - destruct (rebalance_spec c s lv l r Hl Hr)
      as (c1 & s1 & lv1 & l1 & r1 & Hreb & Hwf1 & Hsec1 & Hc1 & Hlv1).
    pose proof (rebalance_progress _ _ _ _ _ _ Hl Hr Hreb) as Hprog.
    cbn [rebalanceLoop]. rewrite Hreb. cbn [bind balanceOf].
    destruct (Z.abs (level l1 - level r1) >? 1) eqn:Hb.
    + assert (Hunb : rootBalanced (Branch c1 s1 lv1 l1 r1) = false)
        by (cbn [rootBalanced]; lia).
      specialize (Hprog Hunb). rewrite potential_stale in Hprog by assumption.
      pose proof Hwf1 as Hwf1'. wf_inv.
      destruct (IH c1 s1 lv1 l1 r1 Hwl Hwr ltac:(lia))
        as (c2 & s2 & lv2 & l2 & r2 &
            Hloop & Hwf2 & Hbal2 & Hsec2 & Hc2 & Hlv2).
      exists c2, s2, lv2, l2, r2. rewrite Hloop.
      repeat split; try assumption; try congruence; try lia.
      all: apply wf_branch_inv in Hwf2; tauto.
    + exists c1, s1, lv1, l1, r1.
      repeat split; try assumption; try lia.
      all: try (apply wf_branch_inv in Hwf1; tauto).
      cbn [rootBalanced]. lia.
Qed.

(** More fuel does not change a result. *)
Lemma rebalanceLoop_mono fuel : forall fuel' span span',
  rebalanceLoop fuel span = Some span' ->
  (fuel <= fuel')%nat ->
  rebalanceLoop fuel' span = Some span'.
Proof.
  induction fuel as [|fuel IH]; intros fuel' span span' H Hle; [discriminate|].
  destruct fuel' as [|fuel']; [lia|].
  cbn [rebalanceLoop] in *.
  destruct (rebalance span) as [s1|]; [|discriminate]. cbn [bind] in *.
  destruct (balanceOf s1) as [b|]; [|discriminate]. cbn [bind] in *.
  destruct (Z.abs b >? 1); [|assumption].
  apply IH; [assumption | lia].
Qed.

(** ** Lists of sections *)

Lemma len_sections span : wf span -> len (sections span) = count span.
Proof.
  intros H. unfold len. rewrite length_sections by assumption.
  pose proof (wf_count_pos _ H). lia.
Qed.

Lemma firstn_repeat (q : Q) (k n : nat) :
  firstn k (repeat q n) = repeat q (Nat.min k n).
Proof.
  revert n. induction k as [|k IH]; intros [|n]; simpl; try reflexivity.
  now rewrite IH.
Qed.

Lemma skipn_repeat (q : Q) (k n : nat) :
  skipn k (repeat q n) = repeat q (n - k).
Proof.
  revert n. induction k as [|k IH]; intros [|n]; simpl; try reflexivity.
  apply IH.
Qed.

Lemma removeRange_all i n xs :
  i = 0 -> n = len xs -> removeRange i n xs = [].
Proof.
  intros -> ->. unfold removeRange, len. simpl.
  rewrite Nat2Z.id. apply skipn_all.
Qed.

Lemma removeRange_app_left i n xs ys :
  0 <= i -> 0 <= n -> i + n <= len xs ->
  removeRange i n (xs ++ ys) = removeRange i n xs ++ ys.
Proof.
  unfold removeRange, len. intros Hi Hn Hle.
  rewrite firstn_app, skipn_app.
  replace (Z.to_nat i - length xs)%nat with 0%nat by lia.
  replace (Z.to_nat (i + n) - length xs)%nat with 0%nat by lia.
  simpl. now rewrite app_nil_r, <- app_assoc.
Qed.

Lemma removeRange_app_right i n xs ys :
  len xs <= i -> 0 <= n ->
  removeRange i n (xs ++ ys) = xs ++ removeRange (i - len xs) n ys.
Proof.
  unfold removeRange, len. intros Hi Hn.
  rewrite firstn_app, skipn_app.
  rewrite firstn_all2 by lia. rewrite (skipn_all2 xs) by lia.
  replace (Z.to_nat (i - Z.of_nat (length xs)))
    with (Z.to_nat i - length xs)%nat by lia.
  replace (Z.to_nat (i - Z.of_nat (length xs) + n))
    with (Z.to_nat (i + n) - length xs)%nat by lia.
  simpl. now rewrite <- app_assoc.
Qed.

Lemma removeRange_app_both i n xs ys :
  0 <= i <= len xs -> len xs <= i + n ->
  removeRange i n (xs ++ ys) =
  removeRange i (len xs - i) xs ++ removeRange 0 (i + n - len xs) ys.
Proof.
  unfold removeRange, len. intros Hi Hn.
  rewrite firstn_app, skipn_app.
  replace (Z.to_nat i - length xs)%nat with 0%nat by lia.
  rewrite (skipn_all2 xs) by lia.
  replace (Z.to_nat (i + (Z.of_nat (length xs) - i))) with (length xs) by lia.
  rewrite skipn_all. simpl.
  replace (Z.to_nat (i + n - Z.of_nat (length xs)))
    with (Z.to_nat (i + n) - length xs)%nat by lia.
  now rewrite !app_nil_r.
Qed.

Lemma Qred_each (s : Q) (c k : Z) :
  0 < k ->
  Qred (inject_Z k * (s / inject_Z c) / inject_Z k) = Qred (s / inject_Z c).
Proof.
  intros Hk. apply Qred_complete. generalize (s / inject_Z c)%Q. intros x.
  assert (~ inject_Z k == 0)%Q.
  { intro E. apply (Qeq_bool_neq (inject_Z k) 0); [|assumption].
    unfold Qeq_bool, inject_Z; simpl. apply Z.eqb_neq. lia. }
  field. assumption.
Qed.

Lemma removeRange_repeat (q : Q) (i n c : Z) :
  0 <= i -> 0 <= n -> i + n <= c ->
  removeRange i n (repeat q (Z.to_nat c)) = repeat q (Z.to_nat (c - n)).
Proof.
  intros Hi Hn Hc. unfold removeRange.
  rewrite firstn_repeat, skipn_repeat, <- repeat_app. f_equal. lia.
Qed.

(** ** Remove *)

Lemma wf_branch_or_leaf span :
  wf span -> (level span >? 0) = false -> exists c s, span = Leaf c s.
Proof.
  destruct span as [c s | c s lv l r]; intros H Hlv.
  - eauto.
  - wf_inv. wf_levels. simpl in Hlv. lia.
Qed.

(** Hoisting and the loop, the tail of [remove]. *)
Lemma remove_finish fuel c s lv (l' r' : option ISpan) B :
  wf_list l' -> wf_list r' ->
  0 < SectionList.count l' + SectionList.count r' ->
  level_below B l' -> level_below B r' ->
  0 < lv ->
  2 * B + 1 < Z.of_nat fuel ->
  exists T,
    (span' <-
       match l', r' with
       | None, None => None
       | None, Some r1 => Some r1
       | Some l1, None => Some l1
       | Some l1, Some r1 => Some (Branch c s lv l1 r1)
       end ;;
     if level span' >? 0 then
       span'' <- rebalanceLoop fuel span' ;;
       Some (Some span'')
     else Some (Some span')) = Some (Some T) /\
    wf T /\
    count T = SectionList.count l' + SectionList.count r' /\
    sections T = sections_list l' ++ sections_list r' /\
    level T <= B /\
    rootBalanced T = true.
Proof.
  intros Hl Hr Hcnt HBl HBr Hlv Hfuel.
  assert (Hone : forall o, wf_list o -> level_below B o -> o <> None ->
     exists T, (span' <- o ;;
       if level span' >? 0 then
         span'' <- rebalanceLoop fuel span' ;; Some (Some span'')
       else Some (Some span')) = Some (Some T) /\
      wf T /\ count T = SectionList.count o /\
      sections T = sections_list o /\ level T <= B /\ rootBalanced T = true).
  { intros [x|] Hx HBx Hne; [|congruence]. cbn [bind].
    destruct (level x >? 0) eqn:Hlx.
    - destruct x as [xc xs | xc xs xlv a b]; [simpl in Hlx; lia|].
      simpl in Hx, HBx. destruct Hx as (Hc & Hs & Hxlv & Ha & Hb).
      destruct (rebalanceLoop_spec fuel xc xs xlv a b Ha Hb)
        as (c2 & s2 & lv2 & l2 & r2 &
            Hloop & Hwf2 & Hbal2 & Hsec2 & Hc2 & Hlv2).
      { pose proof (potential_bound (createBranch a b)) as Hpb.
        cbn [createBranch level] in Hpb. lia. }
      rewrite Hloop. cbn [bind]. eexists. split; [reflexivity|].
      simpl in *. repeat split; try tauto; try lia.
    - exists x. split; [reflexivity|].
      destruct (wf_branch_or_leaf x Hx Hlx) as (xc & xs & ->).
      simpl in *. repeat split; try tauto; try lia. }
  destruct l' as [l1|], r' as [r1|].
  - cbn [bind level]. replace (lv >? 0) with true by lia.
    simpl in Hl, Hr, HBl, HBr.
    destruct (rebalanceLoop_spec fuel c s lv l1 r1 Hl Hr)
      as (c2 & s2 & lv2 & l2 & r2 & Hloop & Hwf2 & Hbal2 & Hsec2 & Hc2 & Hlv2).
    { pose proof (potential_bound (createBranch l1 r1)) as Hpb.
      cbn [createBranch level] in Hpb. lia. }
    rewrite Hloop. cbn [bind]. eexists. split; [reflexivity|].
    simpl in *. repeat split; try tauto; try lia.
  - destruct (Hone (Some l1) Hl HBl ltac:(congruence)) as (T & HT & H).
    exists T. split; [exact HT|]. simpl in *.
    rewrite app_nil_r, Z.add_0_r. exact H.
  - destruct (Hone (Some r1) Hr HBr ltac:(congruence)) as (T & HT & H).
    exists T. split; [exact HT|]. simpl in *. exact H.
  - simpl in Hcnt. lia.
Qed.

Lemma Qmult_nonneg_each (s : Q) (c k : Z) :
  0 < c -> 0 <= k -> (0 <= s)%Q -> (0 <= inject_Z k * (s / inject_Z c))%Q.
Proof.
  intros Hc Hk Hs. apply Qmult_le_0_compat.
  - change 0%Q with (inject_Z 0). rewrite <- Zle_Qle. assumption.
  - apply Qle_shift_div_l.
    + change 0%Q with (inject_Z 0). rewrite <- Zlt_Qlt. assumption.
    + lra.
Qed.

(** What [remove] does to a well-formed span, given enough fuel. *)
Lemma remove_spec fuel : forall span index cnt,
  wf span -> 0 <= index -> 0 < cnt -> index + cnt <= count span ->
  enough fuel span ->
  exists res,
    remove fuel span index cnt = Some res /\
    wf_list res /\
    SectionList.count res = count span - cnt /\
    sections_list res = removeRange index cnt (sections span) /\
    level_below (level span + 1) res /\
    match res with Some T => rootBalanced T = true | None => True end.
Proof.
  induction span as [c s | c s lv l IHl r IHr];
    intros index cnt Hwf Hi Hn Hle Hfuel.
  - cbn [remove count]. destruct (cnt =? c) eqn:Hcc.
    + exists None. simpl in *. repeat split; try lia.
      symmetry. apply removeRange_all; [lia|].
      unfold len. rewrite repeat_length. lia.
    + eexists. split; [reflexivity|]. destruct Hwf as (Hc & Hs).
      cbn [sections_list sections wf_list wf SectionList.count count
           level_below level rootBalanced] in *.
      repeat split; try lia.
      * apply Qmult_nonneg_each; [lia | lia | assumption].
      * rewrite Qred_each by lia. symmetry. apply removeRange_repeat; lia.
  - cbn [remove]. destruct (cnt =? count (Branch c s lv l r)) eqn:Hcc.
    + exists None. simpl in Hcc, Hle. simpl. repeat split; try lia.
      symmetry. apply removeRange_all; [lia|].
      change (sections l ++ sections r) with (sections (Branch c s lv l r)).
      rewrite len_sections by assumption. simpl. lia.
    + pose proof Hwf as Hwf'. wf_inv.
      pose proof (wf_count_pos _ Hwl). pose proof (wf_count_pos _ Hwr).
      wf_levels. unfold enough in *. cbn [level count] in *.
      assert (Hfin : forall l' r',
        wf_list l' -> wf_list r' ->
        SectionList.count l' + SectionList.count r' = c - cnt ->
        sections_list l' ++ sections_list r' =
          removeRange index cnt (sections l ++ sections r) ->
        level_below lv l' -> level_below lv r' ->
        exists res,
          (span' <-
             match l', r' with
             | None, None => None
             | None, Some r1 => Some r1
             | Some l1, None => Some l1
             | Some l1, Some r1 => Some (Branch c s lv l1 r1)
             end ;;
           if level span' >? 0 then
             span'' <- rebalanceLoop fuel span' ;;
             Some (Some span'')
           else Some (Some span')) = Some res /\
          wf_list res /\ SectionList.count res = c - cnt /\
          sections_list res =
            removeRange index cnt (sections l ++ sections r) /\
          level_below (lv + 1) res /\
          match res with Some T => rootBalanced T = true | None => True end).
      { intros l' r' Hl' Hr' Hcnt Hsec HBl HBr.
        destruct (remove_finish fuel c s lv l' r' lv Hl' Hr')
          as (T & HT & HwT & HcT & HsT & HlT & HbT); try assumption; try lia.
        exists (Some T). split; [exact HT|]. simpl.
        repeat split; try assumption; try lia. congruence. }
      destruct ((index <? count l) && (index + cnt >? count l)) eqn:Hboth.
      * destruct (IHl index (count l - index) Hwl)
          as (l' & Hl' & Hwl' & Hcl' & Hsl' & HBl' & _); try lia.
        destruct (IHr 0 (cnt - (count l - index)) Hwr)
          as (r' & Hr' & Hwr' & Hcr' & Hsr' & HBr' & _); try lia.
        rewrite Hl'. cbn [bind]. rewrite Hr'. cbn [bind].
        apply Hfin; try assumption; try lia.
        -- rewrite Hsl', Hsr'.
           rewrite removeRange_app_both
             by (rewrite len_sections by assumption; lia).
           rewrite len_sections by assumption.
           replace (cnt - (count l - index))
             with (index + cnt - count l) by lia.
           reflexivity.
        -- destruct l'; simpl in *; lia.
        -- destruct r'; simpl in *; lia.
      * destruct (index <? count l) eqn:Hil.
        -- destruct (IHl index cnt Hwl)
             as (l' & Hl' & Hwl' & Hcl' & Hsl' & HBl' & _); try lia.
           rewrite Hl'. cbn [bind].
           apply (Hfin l' (Some r)); try assumption; try (simpl; lia).
           ++ simpl. rewrite Hsl'.
              rewrite removeRange_app_left
                by (rewrite ?len_sections by assumption; lia).
              reflexivity.
           ++ destruct l'; simpl in *; lia.
        -- destruct (IHr (index - count l) cnt Hwr)
             as (r' & Hr' & Hwr' & Hcr' & Hsr' & HBr' & _); try lia.
           rewrite Hr'. cbn [bind].
           apply (Hfin (Some l) r'); try assumption; try (simpl; lia).
           ++ simpl. rewrite Hsr'.
              rewrite removeRange_app_right
                by (rewrite ?len_sections by assumption; lia).
              rewrite len_sections by assumption. reflexivity.
           ++ destruct r'; simpl in *; lia.
Qed.

(** More fuel does not change what [remove] returns. *)
Lemma remove_mono fuel fuel' : forall span index cnt res,
  remove fuel span index cnt = Some res ->
  (fuel <= fuel')%nat ->
  remove fuel' span index cnt = Some res.
Proof.
  induction span as [c s | c s lv l IHl r IHr]; intros index cnt res H Hle.
  - exact H.
  - cbn [remove] in *. destruct (cnt =? count (Branch c s lv l r)); [exact H|].
    assert (Hsub :
      (if (index <? count l) && (index + cnt >? count l) then
         l' <- remove fuel l index (count l - index) ;;
         r' <- remove fuel r 0 (cnt - (count l - index)) ;;
         Some (l', r')
       else if index <? count l then
         l' <- remove fuel l index cnt ;; Some (l', Some r)
       else
         r' <- remove fuel r (index - count l) cnt ;; Some (Some l, r')) =
      (if (index <? count l) && (index + cnt >? count l) then
         l' <- remove fuel' l index (count l - index) ;;
         r' <- remove fuel' r 0 (cnt - (count l - index)) ;;
         Some (l', r')
       else if index <? count l then
         l' <- remove fuel' l index cnt ;; Some (l', Some r)
       else
         r' <- remove fuel' r (index - count l) cnt ;; Some (Some l, r')) \/
      (if (index <? count l) && (index + cnt >? count l) then
         l' <- remove fuel l index (count l - index) ;;
         r' <- remove fuel r 0 (cnt - (count l - index)) ;;
         Some (l', r')
       else if index <? count l then
         l' <- remove fuel l index cnt ;; Some (l', Some r)
       else
         r' <- remove fuel r (index - count l) cnt ;; Some (Some l, r'))
      = None).
    { destruct ((index <? count l) && (index + cnt >? count l)).
      - destruct (remove fuel l index (count l - index)) as [l'|] eqn:El;
          [|now right].
        rewrite (IHl _ _ _ El Hle). cbn [bind].
        destruct (remove fuel r 0 (cnt - (count l - index))) as [r'|] eqn:Er;
          [|now right].
        rewrite (IHr _ _ _ Er Hle). now left.
      - destruct (index <? count l).
        + destruct (remove fuel l index cnt) as [l'|] eqn:El; [|now right].
          rewrite (IHl _ _ _ El Hle). now left.
        + destruct (remove fuel r (index - count l) cnt) as [r'|] eqn:Er;
            [|now right].
          rewrite (IHr _ _ _ Er Hle). now left. }
    destruct Hsub as [Hsub | Hsub]; [| rewrite Hsub in H; discriminate].
    rewrite <- Hsub.
    destruct (if (index <? count l) && (index + cnt >? count l) then _ else _)
      as [[l' r']|]; [|discriminate].
    cbn [bind] in *.
    destruct (match l', r' with
              | None, None => None
              | None, Some r1 => Some r1
              | Some l1, None => Some l1
              | Some l1, Some r1 => Some (Branch c s lv l1 r1)
              end) as [span'|]; [|discriminate].
    cbn [bind] in *. destruct (level span' >? 0); [|exact H].
    destruct (rebalanceLoop fuel span') as [T|] eqn:ET; [|discriminate].
    rewrite (rebalanceLoop_mono _ _ _ _ ET Hle). exact H.
Qed.

(** ** Sums of sections *)



Lemma inject_Z_nonzero k : k <> 0 -> ~ (inject_Z k == 0)%Q.
Proof.
  intros Hk E. apply Hk. unfold Qeq, inject_Z in E. simpl in E. lia.
Qed.




(** ** Insertion into lists of sections *)

Lemma insertAt_app_left i ys xs zs :
  0 <= i <= len xs ->
  insertAt i ys (xs ++ zs) = insertAt i ys xs ++ zs.
Proof.
  unfold insertAt, len. intros Hi.
  rewrite firstn_app, skipn_app.
  replace (Z.to_nat i - length xs)%nat with 0%nat by lia.
  simpl. now rewrite app_nil_r, <- !app_assoc.
Qed.

Lemma insertAt_app_right i ys xs zs :
  len xs <= i ->
  insertAt i ys (xs ++ zs) = xs ++ insertAt (i - len xs) ys zs.
Proof.
  unfold insertAt, len. intros Hi.
  rewrite firstn_app, skipn_app.
  rewrite firstn_all2 by lia. rewrite (skipn_all2 xs) by lia.
  replace (Z.to_nat (i - Z.of_nat (length xs)))
    with (Z.to_nat i - length xs)%nat by lia.
  simpl. now rewrite <- !app_assoc.
Qed.

Lemma insertAt_repeat (q : Q) (i n c : Z) :
  0 <= i <= c -> 0 <= n ->
  insertAt i (repeat q (Z.to_nat n)) (repeat q (Z.to_nat c)) =
  repeat q (Z.to_nat (c + n)).
Proof.
  intros Hi Hn. unfold insertAt.
  rewrite firstn_repeat, skipn_repeat, <- !repeat_app. f_equal. lia.
Qed.

Lemma insertAt_split (q : Q) (i c : Z) ys :
  0 <= i <= c ->
  insertAt i ys (repeat q (Z.to_nat c)) =
  repeat q (Z.to_nat i) ++ ys ++ repeat q (Z.to_nat (c - i)).
Proof.
  intros Hi. unfold insertAt. rewrite firstn_repeat, skipn_repeat.
  repeat f_equal; lia.
Qed.

(** ** Insert *)

Lemma Qmult_nonneg_Z (k : Z) (q : Q) :
  0 <= k -> (0 <= q)%Q -> (0 <= inject_Z k * q)%Q.
Proof.
  intros Hk Hq. apply Qmult_le_0_compat; [|assumption].
  change 0%Q with (inject_Z 0). rewrite <- Zle_Qle. assumption.
Qed.

Lemma Qred_run (q : Q) (k : Z) :
  0 < k -> Qred (inject_Z k * q / inject_Z k) = Qred q.
Proof.
  intros Hk. apply Qred_complete. field. apply inject_Z_nonzero. lia.
Qed.

Lemma Qred_extend (s sz : Q) (c k : Z) :
  0 < c -> 0 < k -> (sz == s / inject_Z c)%Q ->
  Qred ((s + inject_Z k * sz) / inject_Z (c + k)) = Qred sz /\
  Qred (s / inject_Z c) = Qred sz.
Proof.
  intros Hc Hk E. split; apply Qred_complete.
  - assert (H1 : ~ (inject_Z c == 0)%Q) by (apply inject_Z_nonzero; lia).
    assert (H2 : ~ (inject_Z c + inject_Z k == 0)%Q)
      by (rewrite <- inject_Z_plus; apply inject_Z_nonzero; lia).
    rewrite E, inject_Z_plus. field. tauto.
  - symmetry. assumption.
Qed.

(** What [insert] does to a well-formed span. *)
Lemma insert_spec : forall span index cnt sz,
  wf span -> 0 <= index <= count span -> 0 < cnt -> (0 <= sz)%Q ->
  exists T,
    insert span index cnt sz = Some T /\
    wf T /\
    count T = count span + cnt /\
    sections T =
      insertAt index (repeat (Qred sz) (Z.to_nat cnt)) (sections span).
Proof.
  induction span as [c s | c s lv l IHl r IHr];
    intros index cnt sz Hwf Hi Hn Hsz.
  - destruct Hwf as (Hc & Hs). cbn [insert count] in *.
    destruct (Qeq_bool sz (s / inject_Z c)) eqn:Heq.
    { apply Qeq_bool_iff in Heq.
      destruct (Qred_extend s sz c cnt Hc Hn Heq) as (E1 & E2).
      eexists. split; [reflexivity|]. cbn [wf count sections].
      repeat split; try lia.
      - pose proof (Qmult_nonneg_Z cnt sz ltac:(lia) Hsz). lra.
      - rewrite E1, E2. symmetry. apply insertAt_repeat; lia. }
    destruct (index =? 0) eqn:Hi0.
    { eexists. split; [reflexivity|].
      cbn [wf count sections createBranch createLeaf level size].
      repeat split; try lia; try reflexivity; try assumption.
      - apply Qmult_nonneg_Z; [lia | assumption].
      - rewrite Qred_run by lia. apply Z.eqb_eq in Hi0. subst index.
        reflexivity. }
    destruct (index >=? c) eqn:Hic.
    { eexists. split; [reflexivity|].
      cbn [wf count sections createBranch createLeaf level size].
      repeat split; try lia; try reflexivity; try assumption.
      - apply Qmult_nonneg_Z; [lia | assumption].
      - rewrite Qred_run by lia. assert (index = c) by lia. subst index.
        unfold insertAt.
        rewrite firstn_all2, skipn_all2 by (rewrite repeat_length; lia).
        now rewrite app_nil_r. }
    eexists. split; [reflexivity|].
    cbn [wf count sections createBranch updateBranch createLeaf level size].
    repeat split; try lia; try reflexivity.
    + apply Qmult_nonneg_each; [lia | lia | assumption].
    + apply Qmult_nonneg_Z; [lia | assumption].
    + apply Qmult_nonneg_each; [lia | lia | assumption].
    + rewrite !Qred_run by lia. symmetry. apply insertAt_split. lia.
  - pose proof Hwf as Hwf'. apply wf_branch_inv in Hwf'.
    destruct Hwf' as (Hc & Hs & Hlv & Hwl & Hwr).
    pose proof (wf_count_pos _ Hwl). pose proof (wf_count_pos _ Hwr).
    cbn [insert count] in *.
    destruct (index <? count l) eqn:Hil.
    + destruct (IHl index cnt sz Hwl ltac:(lia) Hn Hsz)
        as (l' & Hl' & Hwl' & Hcl' & Hsl').
      rewrite Hl'. cbn [bind].
      destruct (rebalance_spec c s lv l' r Hwl' Hwr)
        as (c1 & s1 & lv1 & l1 & r1 & Hreb & Hwf1 & Hsec1 & Hc1 & Hlv1).
      eexists. split; [exact Hreb|]. split; [exact Hwf1|].
      cbn [count sections]. split; [lia|].
      rewrite Hsec1, Hsl'. symmetry. apply insertAt_app_left.
      rewrite len_sections by assumption. lia.
    + destruct (IHr (index - count l) cnt sz Hwr ltac:(lia) Hn Hsz)
        as (r' & Hr' & Hwr' & Hcr' & Hsr').
      rewrite Hr'. cbn [bind].
      destruct (rebalance_spec c s lv l r' Hwl Hwr')
        as (c1 & s1 & lv1 & l1 & r1 & Hreb & Hwf1 & Hsec1 & Hc1 & Hlv1).
      eexists. split; [exact Hreb|]. split; [exact Hwf1|].
      cbn [count sections]. split; [lia|].
      rewrite Hsec1, Hsr'. symmetry.
      rewrite insertAt_app_right by (rewrite len_sections by assumption; lia).
      rewrite len_sections by assumption. reflexivity.
Qed.

(** ** Queries on a well-formed span *)










Lemma indexOf_loop_comp : forall span index o o',
  (o == o')%Q -> indexOf_loop span index o = indexOf_loop span index o'.
Proof.
  induction span as [c s | c s lv l IHl r IHr]; intros index o o' E;
    cbn [indexOf_loop].
  - f_equal. apply Qfloor_comp. now rewrite E.
  - destruct (Qlt_le_dec o (size l)), (Qlt_le_dec o' (size l)); try lra.
    + now apply IHl.
    + apply IHr. now rewrite E.
Qed.


(** ** The facade on well-formed lists *)

Lemma Qmax0_nonneg sz : (0 <= Qmax 0 sz)%Q.
Proof. apply Q.le_max_l. Qed.

Lemma insertAt_nil i ys : insertAt i ys [] = ys.
Proof. unfold insertAt. rewrite firstn_nil, skipn_nil. apply app_nil_r. Qed.

Lemma removeRange_none i xs : removeRange i 0 xs = xs.
Proof. unfold removeRange. rewrite Z.add_0_r. apply firstn_skipn. Qed.

(** What [insert] of the facade does when [floor(count) > 0]. *)
Lemma insert_facade_spec st index cnt sz :
  wf_list st -> 0 < Qfloor cnt ->
  exists st',
    SectionList.insert st index cnt sz = Some (st', clampIndex st index) /\
    wf_list st' /\
    SectionList.count st' = SectionList.count st + Qfloor cnt /\
    sections_list st' =
      insertAt (clampIndex st index)
        (repeat (Qred (Qmax 0 sz)) (Z.to_nat (Qfloor cnt))) (sections_list st).
Proof.
  intros Hwf Hct. unfold SectionList.insert, clampIndex.
  replace (Qfloor cnt <=? 0) with false by lia.
  destruct st as [r|].
  - cbn [wf_list SectionList.count sections_list] in *.
    pose proof (wf_count_pos _ Hwf).
    destruct (insert_spec r (Z.max 0 (Z.min (Qfloor index) (count r)))
                (Qfloor cnt) (Qmax 0 sz) Hwf ltac:(lia) Hct (Qmax0_nonneg sz))
      as (T & HT & HwT & HcT & HsT).
    rewrite HT. cbn [bind]. exists (Some T). repeat split; assumption.
  - cbn [SectionList.count].
    replace (Z.max 0 (Z.min (Qfloor index) 0)) with 0 by lia.
    eexists. split; [reflexivity|].
    cbn [wf_list wf createLeaf SectionList.count count sections_list sections].
    repeat split; try lia.
    + apply Qmult_nonneg_Z; [lia | apply Qmax0_nonneg].
    + rewrite Qred_run by lia. now rewrite insertAt_nil.
Qed.

Lemma insert_facade_noop st index cnt sz :
  Qfloor cnt <= 0 -> SectionList.insert st index cnt sz = Some (st, -1).
Proof.
  intros H. unfold SectionList.insert.
  now replace (Qfloor cnt <=? 0) with true by lia.
Qed.

Lemma remove_facade_noop fuel st index cnt :
  actualCount st index cnt = 0 ->
  SectionList.remove fuel st index cnt = Some (st, 0).
Proof.
  unfold actualCount, SectionList.remove. intros H.
  destruct st as [r|]; [|reflexivity].
  destruct (Qfloor cnt <=? 0); [reflexivity|].
  cbn [SectionList.count] in *.
  now replace (Z.min (Qfloor index + Qfloor cnt - 1) (count r - 1)
               - Z.max 0 (Qfloor index) + 1 <=? 0) with true by lia.
Qed.

Lemma resize_facade_noop fuel st index cnt sz :
  actualCount st index cnt = 0 ->
  SectionList.resize fuel st index cnt sz = Some (st, 0).
Proof.
  unfold actualCount, SectionList.resize. intros H.
  destruct st as [r|]; [|reflexivity].
  destruct (Qfloor cnt <=? 0); [reflexivity|].
  cbn [SectionList.count] in *.
  now replace (Z.min (Qfloor index + Qfloor cnt - 1) (count r - 1)
               - Z.max 0 (Qfloor index) + 1 <=? 0) with true by lia.
Qed.

(** A removal that takes at least one section. *)
Lemma remove_facade_some fuel r index cnt :
  0 < actualCount (Some r) index cnt ->
  SectionList.remove fuel (Some r) index cnt =
    (r' <- remove fuel r (startIndex index) (actualCount (Some r) index cnt) ;;
     Some (r', actualCount (Some r) index cnt)) /\
  0 < Qfloor cnt /\
  startIndex index + actualCount (Some r) index cnt <= count r.
Proof.
  unfold actualCount, startIndex, SectionList.remove. cbn [SectionList.count].
  intros H.
  destruct (Qfloor cnt <=? 0) eqn:E; [lia|].
  replace (Z.min (Qfloor index + Qfloor cnt - 1) (count r - 1)
           - Z.max 0 (Qfloor index) + 1 <=? 0) with false by lia.
  replace (Z.max 0 (Z.min (Qfloor index + Qfloor cnt - 1) (count r - 1)
                    - Z.max 0 (Qfloor index) + 1))
    with (Z.min (Qfloor index + Qfloor cnt - 1) (count r - 1)
          - Z.max 0 (Qfloor index) + 1) by lia.
  repeat split; lia.
Qed.

(** What [remove] of the facade does, given enough fuel. *)
Lemma remove_facade_spec fuel st index cnt :
  wf_list st -> enough_list fuel st ->
  exists st',
    SectionList.remove fuel st index cnt =
      Some (st', actualCount st index cnt) /\
    wf_list st' /\
    SectionList.count st' = SectionList.count st - actualCount st index cnt /\
    sections_list st' =
      removeRange (startIndex index) (actualCount st index cnt)
        (sections_list st) /\
    (0 < actualCount st index cnt -> rootBalanced_list st' = true).
Proof.
  intros Hwf Hfuel.
  destruct (Z.eq_dec (actualCount st index cnt) 0) as [E | E].
  - exists st. rewrite E, remove_facade_noop by assumption.
    rewrite removeRange_none. repeat split; try assumption; lia.
  - assert (Hpos : 0 < actualCount st index cnt)
      by (unfold actualCount in *; lia).
    destruct st as [r|]; [|unfold actualCount in Hpos; simpl in Hpos; lia].
    destruct (remove_facade_some fuel r index cnt Hpos) as (-> & Hct & Hle).
    cbn [wf_list enough_list] in *.
    destruct (remove_spec fuel r (startIndex index)
                (actualCount (Some r) index cnt) Hwf
                ltac:(unfold startIndex; lia) Hpos Hle Hfuel)
      as (res & Hres & Hwres & Hcres & Hsres & _ & Hbal).
    rewrite Hres. cbn [bind]. exists res.
    split; [reflexivity|]. repeat split; try assumption.
    intros _. destruct res; [assumption | reflexivity].
Qed.

(** Whatever the fuel, a removal that returns has returned this. *)
Lemma remove_facade_any fuel st index cnt st' n :
  wf_list st ->
  SectionList.remove fuel st index cnt = Some (st', n) ->
  n = actualCount st index cnt /\
  wf_list st' /\
  SectionList.count st' = SectionList.count st - n /\
  sections_list st' = removeRange (startIndex index) n (sections_list st).
Proof.
  intros Hwf H.
  destruct (Z.eq_dec (actualCount st index cnt) 0) as [E | E].
  - rewrite remove_facade_noop in H by assumption. injection H as <- <-.
    rewrite removeRange_none. repeat split; try assumption; lia.
  - assert (Hpos : 0 < actualCount st index cnt)
      by (unfold actualCount in *; lia).
    destruct st as [r|]; [|unfold actualCount in Hpos; simpl in Hpos; lia].
    destruct (remove_facade_some fuel r index cnt Hpos) as (Heq & Hct & Hle).
    rewrite Heq in H.
    destruct (remove fuel r (startIndex index) (actualCount (Some r) index cnt))
      as [res|] eqn:Hres; [|discriminate].
    cbn [bind] in H. injection H as <- <-.
    set (fuel' := Nat.max fuel (Z.to_nat (2 * level r + 2))).
    pose proof (remove_mono fuel fuel' _ _ _ _ Hres ltac:(lia)) as Hres'.
    cbn [wf_list] in Hwf. pose proof (wf_level_nonneg _ Hwf).
    destruct (remove_spec fuel' r (startIndex index)
                (actualCount (Some r) index cnt) Hwf
                ltac:(unfold startIndex; lia) Hpos Hle
                ltac:(unfold enough; lia))
      as (res2 & Hres2 & Hwres & Hcres & Hsres & _).
    assert (res2 = res) by congruence. subst res2.
    split; [reflexivity|]. repeat split; assumption.
Qed.

(** ** Resize, and the states a list can be in *)

Lemma insert_facade_any st index cnt sz st' i :
  wf_list st ->
  SectionList.insert st index cnt sz = Some (st', i) ->
  wf_list st' /\
  SectionList.count st' = SectionList.count st + Z.max 0 (Qfloor cnt).
Proof.
  intros Hwf H. destruct (Z_le_gt_dec (Qfloor cnt) 0) as [Hle | Hgt].
  - rewrite insert_facade_noop in H by assumption. injection H as <- <-.
    split; [assumption | lia].
  - destruct (insert_facade_spec st index cnt sz Hwf ltac:(lia))
      as (st2 & H2 & Hw2 & Hc2 & _).
    rewrite H2 in H. injection H as <- <-. split; [assumption | lia].
Qed.

Lemma resize_facade_some fuel r index cnt sz :
  0 < actualCount (Some r) index cnt ->
  SectionList.resize fuel (Some r) index cnt sz =
    (r' <- remove fuel r (startIndex index) (actualCount (Some r) index cnt) ;;
     match r' with
     | None =>
         Some (Some (createLeaf (actualCount (Some r) index cnt)
                       (inject_Z (actualCount (Some r) index cnt) * Qmax 0 sz)),
               actualCount (Some r) index cnt)
     | Some r'' =>
         r''' <- insert r'' (startIndex index)
                   (actualCount (Some r) index cnt) (Qmax 0 sz) ;;
         Some (Some r''', actualCount (Some r) index cnt)
     end).
Proof.
  unfold actualCount, startIndex, SectionList.resize. cbn [SectionList.count].
  intros H.
  destruct (Qfloor cnt <=? 0) eqn:E; [lia|].
  replace (Z.min (Qfloor index + Qfloor cnt - 1) (count r - 1)
           - Z.max 0 (Qfloor index) + 1 <=? 0) with false by lia.
  replace (Z.max 0 (Z.min (Qfloor index + Qfloor cnt - 1) (count r - 1)
                    - Z.max 0 (Qfloor index) + 1))
    with (Z.min (Qfloor index + Qfloor cnt - 1) (count r - 1)
          - Z.max 0 (Qfloor index) + 1) by lia.
  reflexivity.
Qed.

(** [resize] is [remove] followed by [insert] of what was removed. *)
Lemma resize_remove_insert fuel st index cnt sz :
  wf_list st ->
  SectionList.resize fuel st index cnt sz = resizeSpec fuel st index cnt sz.
Proof.
  intros Hwf. unfold resizeSpec.
  destruct (Z.eq_dec (actualCount st index cnt) 0) as [E | E].
  - rewrite resize_facade_noop, remove_facade_noop by assumption.
    cbn [bind]. rewrite insert_facade_noop by (rewrite Qfloor_Z; lia).
    reflexivity.
  - assert (Hpos : 0 < actualCount st index cnt)
      by (unfold actualCount in *; lia).
    destruct st as [r|]; [|unfold actualCount in Hpos; simpl in Hpos; lia].
    rewrite resize_facade_some by assumption.
    destruct (remove_facade_some fuel r index cnt Hpos) as (Heq & Hct & Hle).
    pose proof (remove_facade_any fuel (Some r) index cnt) as Hany.
    rewrite Heq in *.
    destruct (remove fuel r (startIndex index) (actualCount (Some r) index cnt))
      as [res|]; [|reflexivity].
    cbn [bind] in *.
    destruct (Hany res _ Hwf eq_refl) as (_ & Hwres & Hcres & _).
    unfold SectionList.insert. rewrite !Qfloor_Z.
    replace (actualCount (Some r) index cnt <=? 0) with false by lia.
    destruct res as [r''|]; [|reflexivity].
    cbn [SectionList.count] in *.
    replace (Z.max 0 (Z.min (startIndex index) (count r'')))
      with (startIndex index) by (unfold startIndex in *; lia).
    destruct (insert r'' (startIndex index) (actualCount (Some r) index cnt)
                (Qmax 0 sz)); reflexivity.
Qed.

Lemma resize_facade_any fuel st index cnt sz st' n :
  wf_list st ->
  SectionList.resize fuel st index cnt sz = Some (st', n) ->
  n = actualCount st index cnt /\
  wf_list st' /\
  SectionList.count st' = SectionList.count st.
Proof.
  intros Hwf H. rewrite resize_remove_insert in H by assumption.
  unfold resizeSpec in H.
  destruct (SectionList.remove fuel st index cnt) as [[st1 n1]|] eqn:Hrem;
    [|discriminate].
  cbn [bind] in H.
  destruct (SectionList.insert st1 (inject_Z (startIndex index))
              (inject_Z n1) sz)
    as [[st2 i2]|] eqn:Hins; [|discriminate].
  cbn [bind] in H. injection H as <- <-.
  destruct (remove_facade_any _ _ _ _ _ _ Hwf Hrem) as (Hn & Hw1 & Hc1 & _).
  destruct (insert_facade_any _ _ _ _ _ _ Hw1 Hins) as (Hw2 & Hc2).
  rewrite Qfloor_Z in Hc2.
  repeat split; try assumption. unfold actualCount in Hn. lia.
Qed.

(** Every state of a list is well-formed. *)
Lemma reachable_wf st : reachable st -> wf_list st.
Proof.
  induction 1 as [| st index cnt sz st' i _ IH H
                  | st fuel index cnt st' n _ IH H
                  | st fuel index cnt sz st' n _ IH H].
  - exact I.
  - exact (proj1 (insert_facade_any _ _ _ _ _ _ IH H)).
  - destruct (remove_facade_any _ _ _ _ _ _ IH H) as (_ & Hw & _). exact Hw.
  - destruct (resize_facade_any _ _ _ _ _ _ _ IH H) as (_ & Hw & _). exact Hw.
Qed.

(** A sequence of edits that returns leads from reachable states to
    reachable states. *)
Lemma run_reachable fuel es : forall st st',
  reachable st -> run fuel es st = Some st' -> reachable st'.
Proof.
  induction es as [|e es IH]; intros st st' Hst H; cbn [run] in H.
  - now injection H as <-.
  - destruct (apply fuel st e) as [st1|] eqn:He; [|discriminate].
    cbn [bind] in H. apply (IH st1 st'); [|assumption].
    destruct e as [index cnt sz | index cnt | index cnt sz]; cbn [apply] in He.
    + destruct (SectionList.insert st index cnt sz) as [[st2 i]|] eqn:E;
        [|discriminate].
      cbn [bind] in He. injection He as <-.
      eapply reachable_insert; eassumption.
    + destruct (SectionList.remove fuel st index cnt) as [[st2 i]|] eqn:E;
        [|discriminate].
      cbn [bind] in He. injection He as <-.
      eapply reachable_remove; eassumption.
    + destruct (SectionList.resize fuel st index cnt sz) as [[st2 i]|] eqn:E;
        [|discriminate].
      cbn [bind] in He. injection He as <-.
      eapply reachable_resize; eassumption.
Qed.

(** ** One pass of [rebalance] *)



(** ** Lists made by sequences of edits *)

Lemma listOf_reachable fuel es : reachable (listOf fuel es).
Proof.
  unfold listOf. destruct (run fuel es SectionList.empty) as [st|] eqn:E.
  - exact (run_reachable fuel es _ _ reachable_empty E).
  - exact reachable_empty.
Qed.




(** ** The scenarios of the specification *)

(** Scenario A: [insert(0, 5, 10)] on the empty list. *)
Example scenario_A :
  exists st,
    SectionList.insert SectionList.empty 0 5 10 = Some (st, 0) /\
    st = uniformList /\
    SectionList.count st = 5 /\
    (SectionList.size st == 50)%Q /\
    (SectionList.offsetOf st 2 == 20)%Q /\
    (SectionList.sizeOf st 2 == 10)%Q /\
    SectionList.indexOf st 25 = 2.
Proof. eexists. repeat split; vm_compute; reflexivity. Qed.

(** Scenario B: then [insert(2, 1, 20)]. *)
Example scenario_B :
  exists st,
    SectionList.insert uniformList 2 1 20 = Some (st, 2) /\
    SectionList.count st = 6 /\
    (SectionList.size st == 70)%Q /\
    (SectionList.offsetOf st 2 == 20)%Q /\
    (SectionList.sizeOf st 2 == 20)%Q /\
    (SectionList.offsetOf st 3 == 40)%Q.
Proof. eexists. repeat split; vm_compute; reflexivity. Qed.

(** Scenario C: then [remove(2, 1)]. *)
Example scenario_C :
  exists st,
    SectionList.remove 4 (listOf 0 [Insert 0 5 10; Insert 2 1 20]) 2 1 =
      Some (st, 1) /\
    SectionList.count st = 5 /\
    (SectionList.size st == 50)%Q /\
    sections_list st = sections_list uniformList.
Proof. eexists. repeat split; vm_compute; reflexivity. Qed.

(** Scenario D: [resize(1, 2, 5)] on five sections of size 10. *)
Example scenario_D :
  exists st,
    SectionList.resize 2 uniformList 1 2 5 = Some (st, 2) /\
    SectionList.count st = 5 /\
    (SectionList.size st == 40)%Q /\
    sections_list st = [10; 5; 5; 10; 10]%Q.
Proof. eexists. repeat split; vm_compute; reflexivity. Qed.

(** [remove(-2, 5)] on five sections removes sections 0 to 2. *)
Example remove_minus_two_five :
  exists st,
    SectionList.remove 2 uniformList (-2) 5 = Some (st, 3) /\
    sections_list st = [10; 10]%Q.
Proof. eexists. split; vm_compute; reflexivity. Qed.

(** * The claims *)




(** C2 fails on the code: six inserts build twelve sections in a tree whose
    branches are all balanced; [remove(10, 2)] then lowers the right child
    of the root from level 2 to level 1, [rebalance] meets balance 2 with
    both children of the left child at level 2 and answers with the
    Left-Right rotation, and the new left child is a branch over a span of
    level 2 and a leaf. *)
Lemma remove_leaves_unbalanced_branch :
  reachable lopsidedList /\
  sections_list mixedList = [3; 4; 2; 4; 1; 1; 1; 3; 4; 3; 3; 4]%Q /\
  balanced_list mixedList = true /\
  balanced_list lopsidedList = false /\
  exists c s lv c' s' lv' x y r,
    lopsidedList = Some (Branch c s lv (Branch c' s' lv' x y) r) /\
    level x = 2 /\ level y = 0.
Proof.
  split; [apply listOf_reachable|].
  split; [vm_compute; reflexivity|].
  split; [vm_compute; reflexivity|].
  split; [vm_compute; reflexivity|].
  set (st := lopsidedList). vm_compute in st. subst st.
  do 9 eexists. repeat split.
Qed.



(** C4: on every reachable list and for all inputs, [resize(index, count,
    size)] is [remove(index, count)] followed by [insert] of the number of
    sections removed, at the first removed index and with the new size;
    given enough fuel both return the number of sections of the range that
    lie in the list, and [resize] leaves the total count as it was. *)
Theorem resize_is_remove_then_insert fuel st index cnt sz :
  reachable st ->
  enough_list fuel st ->
  SectionList.resize fuel st index cnt sz = resizeSpec fuel st index cnt sz /\
  exists st1 st2,
    SectionList.remove fuel st index cnt =
      Some (st1, actualCount st index cnt) /\
    SectionList.resize fuel st index cnt sz =
      Some (st2, actualCount st index cnt) /\
    SectionList.count st2 = SectionList.count st.
Proof.
  intros Hst Hfuel. apply reachable_wf in Hst.
  split; [now apply resize_remove_insert|].
  destruct (remove_facade_spec fuel st index cnt Hst Hfuel)
    as (st1 & Hrem & Hw1 & Hc1 & _).
  assert (Hins : exists st2 i,
    SectionList.insert st1 (inject_Z (startIndex index))
      (inject_Z (actualCount st index cnt)) sz = Some (st2, i)).
  { destruct (Z_le_gt_dec (actualCount st index cnt) 0) as [Hle | Hgt].
    - rewrite insert_facade_noop by (rewrite Qfloor_Z; assumption). eauto.
    - destruct (insert_facade_spec st1 (inject_Z (startIndex index))
                  (inject_Z (actualCount st index cnt)) sz Hw1)
        as (st2 & H2 & _); [rewrite Qfloor_Z; lia | eauto]. }
  destruct Hins as (st2 & i & Hins).
  exists st1, st2. split; [assumption|].
  assert (Hres : SectionList.resize fuel st index cnt sz =
                 Some (st2, actualCount st index cnt)).
  { rewrite resize_remove_insert by assumption. unfold resizeSpec.
    rewrite Hrem. cbn [bind]. rewrite Hins. reflexivity. }
  split; [assumption|].
  exact (proj2 (proj2 (resize_facade_any _ _ _ _ _ _ _ Hst Hres))).
Qed.

Lemma resize_is_remove_then_insert_witness :
  SectionList.resize 2 uniformList 1 2 5 = resizeSpec 2 uniformList 1 2 5 /\
  exists st1 st2,
    SectionList.remove 2 uniformList 1 2 =
      Some (st1, actualCount uniformList 1 2) /\
    SectionList.resize 2 uniformList 1 2 5 =
      Some (st2, actualCount uniformList 1 2) /\
    SectionList.count st2 = SectionList.count uniformList.
Proof.
  apply (resize_is_remove_then_insert 2 uniformList 1 2 5).
  - apply listOf_reachable.
  - vm_compute. reflexivity.
Defined.






(** C7: in every list state, [indexOf(-1)], [indexOf(size)], [offsetOf(-1)]
    and [offsetOf(count)] are -1, [insert(idx, 0, s)] returns -1 and
    [remove(idx, 0)] returns 0; a [remove] or [resize] whose count is [<= 0]
    or whose range of indices misses [[0, count)] returns 0 and leaves the
    state as it was. *)
Theorem out_of_bounds_sentinels fuel (st : SectionList.t) idx cnt sz :
  (cnt <= 0)%Q \/
  Qfloor idx + Qfloor cnt <= 0 \/
  SectionList.count st <= Qfloor idx ->
  SectionList.indexOf st (-1) = -1 /\
  SectionList.indexOf st (SectionList.size st) = -1 /\
  SectionList.offsetOf st (-1) = (-1)%Q /\
  SectionList.offsetOf st (inject_Z (SectionList.count st)) = (-1)%Q /\
  SectionList.insert st idx 0 sz = Some (st, -1) /\
  SectionList.remove fuel st idx 0 = Some (st, 0) /\
  SectionList.remove fuel st idx cnt = Some (st, 0) /\
  SectionList.resize fuel st idx cnt sz = Some (st, 0).
Proof.
  intros H.
  assert (Hn : actualCount st idx cnt = 0).
  { unfold actualCount. destruct H as [H | H]; [|lia].
    pose proof (Qfloor_resp_le _ _ H) as Hf.
    change (Qfloor 0) with 0 in Hf. lia. }
  split; [|split; [|split; [|split; [|split; [|split; [|split]]]]]].
  - destruct st as [r|]; [|reflexivity]. reflexivity.
  - destruct st as [r|]; [|reflexivity]. unfold SectionList.indexOf.
    destruct (Qlt_le_dec (SectionList.size (Some r)) 0); [reflexivity|].
    destruct (Qlt_le_dec (SectionList.size (Some r))
                (SectionList.size (Some r)));
      [lra | reflexivity].
  - destruct st as [r|]; reflexivity.
  - destruct st as [r|]; [|reflexivity]. unfold SectionList.offsetOf.
    rewrite Qfloor_Z.
    now replace (SectionList.count (Some r) >=? SectionList.count (Some r))
      with true by lia; rewrite orb_true_r.
  - reflexivity.
  - apply remove_facade_noop. unfold actualCount. change (Qfloor 0) with 0. lia.
  - now apply remove_facade_noop.
  - now apply resize_facade_noop.
Qed.

Lemma out_of_bounds_sentinels_witness :
  SectionList.indexOf uniformList (-1) = -1 /\
  SectionList.indexOf uniformList (SectionList.size uniformList) = -1 /\
  SectionList.offsetOf uniformList (-1) = (-1)%Q /\
  SectionList.offsetOf uniformList
    (inject_Z (SectionList.count uniformList)) = (-1)%Q /\
  SectionList.insert uniformList 3 0 7 = Some (uniformList, -1) /\
  SectionList.remove 0 uniformList 3 0 = Some (uniformList, 0) /\
  SectionList.remove 0 uniformList 3 (-4) = Some (uniformList, 0) /\
  SectionList.resize 0 uniformList 3 (-4) 7 = Some (uniformList, 0).
Proof.
  apply (out_of_bounds_sentinels 0 uniformList 3 (-4) 7).
  left. vm_compute. discriminate.
Defined.

(** C8: every [remove] that takes at least one section of a reachable list
    returns once the fuel exceeds twice the level of the root plus one; each
    loop of rebalancing passes it ran has ended, and the root it returns
    satisfies [|left.level - right.level| <= 1]. *)
Theorem remove_terminates fuel st index cnt :
  reachable st ->
  enough_list fuel st ->
  0 < actualCount st index cnt ->
  exists st',
    SectionList.remove fuel st index cnt =
      Some (st', actualCount st index cnt) /\
    rootBalanced_list st' = true.
Proof.
  intros Hst Hfuel Hpos. apply reachable_wf in Hst.
  destruct (remove_facade_spec fuel st index cnt Hst Hfuel)
    as (st' & Hrem & _ & _ & _ & Hbal).
  exists st'. split; [assumption | now apply Hbal].
Qed.

Lemma remove_terminates_witness :
  exists st',
    SectionList.remove 10 mixedList 2 7 =
      Some (st', actualCount mixedList 2 7) /\
    rootBalanced_list st' = true.
Proof.
  apply (remove_terminates 10 mixedList 2 7).
  - apply listOf_reachable.
  - vm_compute. reflexivity.
  - vm_compute. reflexivity.
Defined.



(** C10: with [floor(index) < 0], [remove(index, count)] on a reachable list
    removes the first [n] sections and returns [n], where [n] is
    [floor(index) + floor(count)] cut to [[0, count of the list]]: the
    negative positions use up part of the requested count. *)
Theorem remove_negative_index fuel st index cnt :
  reachable st ->
  enough_list fuel st ->
  Qfloor index < 0 ->
  exists st',
    SectionList.remove fuel st index cnt =
      Some (st', Z.max 0 (Z.min (Qfloor index + Qfloor cnt)
                            (SectionList.count st))) /\
    sections_list st' =
      skipn (Z.to_nat (Z.max 0 (Z.min (Qfloor index + Qfloor cnt)
                                  (SectionList.count st))))
        (sections_list st) /\
    SectionList.count st' =
      SectionList.count st -
      Z.max 0 (Z.min (Qfloor index + Qfloor cnt) (SectionList.count st)).
Proof.
  intros Hst Hfuel Hneg. apply reachable_wf in Hst.
  destruct (remove_facade_spec fuel st index cnt Hst Hfuel)
    as (st' & Hrem & _ & Hc' & Hs' & _).
  assert (Hn : actualCount st index cnt =
               Z.max 0 (Z.min (Qfloor index + Qfloor cnt)
                          (SectionList.count st)))
    by (unfold actualCount; lia).
  assert (Hstart : startIndex index = 0) by (unfold startIndex; lia).
  rewrite Hn, Hstart in *. exists st'. repeat split; assumption.
Qed.

Lemma remove_negative_index_witness :
  exists st',
    SectionList.remove 2 uniformList (-2) 5 =
      Some (st', Z.max 0 (Z.min (Qfloor (-2) + Qfloor 5)
                            (SectionList.count uniformList))) /\
    sections_list st' =
      skipn (Z.to_nat (Z.max 0 (Z.min (Qfloor (-2) + Qfloor 5)
                                  (SectionList.count uniformList))))
        (sections_list uniformList) /\
    SectionList.count st' =
      SectionList.count uniformList -
      Z.max 0 (Z.min (Qfloor (-2) + Qfloor 5) (SectionList.count uniformList)).
Proof.
  apply (remove_negative_index 2 uniformList (-2) 5).
  - apply listOf_reachable.
  - vm_compute. reflexivity.
  - vm_compute. reflexivity.
Defined.

(** * Further properties of the code *)

(** ** Sections by index *)









(** X1: every list that the editing operations make of the empty list
    satisfies the invariants of the node type: a leaf holds at least one
    section of non-negative size and the count, size and level of a branch
    are those of its children; so the total size is non-negative and the
    count is 0 only for the list without a root. *)
Theorem lists_keep_invariants st :
  reachable st ->
  wf_list st /\
  (0 <= SectionList.size st)%Q /\
  (SectionList.count st = 0 <-> st = SectionList.empty).
Proof.
  intros Hst. apply reachable_wf in Hst. split; [assumption|].
  destruct st as [r|]; cbn [wf_list SectionList.size SectionList.count] in *.
  - split; [now apply wf_size_nonneg|].
    pose proof (wf_count_pos _ Hst). split; [lia | discriminate].
  - split; [apply Qle_refl | tauto].
Qed.

Lemma lists_keep_invariants_witness :
  wf_list mixedList /\
  (0 <= SectionList.size mixedList)%Q /\
  (SectionList.count mixedList = 0 <-> mixedList = SectionList.empty).
Proof.
  apply (lists_keep_invariants mixedList). apply listOf_reachable.
Defined.







(** X5: in every list state, an offset below 0 or not below the total size
    makes [indexOf] answer -1, and an index whose floor is below 0 or not
    below the count makes [offsetOf] and [sizeOf] answer -1. *)
Theorem queries_out_of_range (st : SectionList.t) offset index :
  (offset < 0)%Q \/ (SectionList.size st <= offset)%Q ->
  Qfloor index < 0 \/ SectionList.count st <= Qfloor index ->
  SectionList.indexOf st offset = -1 /\
  SectionList.offsetOf st index = (-1)%Q /\
  SectionList.sizeOf st index = (-1)%Q.
Proof.
  intros Ho Hi. destruct st as [r|]; [|repeat split].
  unfold SectionList.indexOf, SectionList.offsetOf, SectionList.sizeOf.
  replace ((Qfloor index <? 0) || (Qfloor index >=? SectionList.count (Some r)))
    with true by (symmetry; apply orb_true_iff; lia).
  split; [|split; reflexivity].
  destruct (Qlt_le_dec offset 0); [reflexivity|].
  destruct (Qlt_le_dec offset (SectionList.size (Some r))); [lra | reflexivity].
Qed.

Lemma queries_out_of_range_witness :
  SectionList.indexOf mixedList 33 = -1 /\
  SectionList.offsetOf mixedList 12 = (-1)%Q /\
  SectionList.sizeOf mixedList 12 = (-1)%Q.
Proof.
  apply (queries_out_of_range mixedList 33 12).
  - right. vm_compute. discriminate.
  - right. vm_compute. discriminate.
Defined.





(** ** Edits seen through the queries *)

















(** X12: given enough fuel, a [remove] whose range covers a reachable,
    non-empty list returns the count and leaves the list without a root:
    count 0 and size 0. *)
Theorem remove_everything fuel st index cnt :
  reachable st ->
  enough_list fuel st ->
  0 < SectionList.count st ->
  Qfloor index <= 0 ->
  SectionList.count st <= Qfloor index + Qfloor cnt ->
  SectionList.remove fuel st index cnt =
    Some (SectionList.empty, SectionList.count st).
Proof.
  intros Hst Hfuel Hpos Hi Hc. apply reachable_wf in Hst.
  destruct (remove_facade_spec fuel st index cnt Hst Hfuel)
    as (st' & Hrem & Hw' & Hc' & _).
  assert (Hn : actualCount st index cnt = SectionList.count st)
    by (unfold actualCount; lia).
  rewrite Hn in *. rewrite Hrem.
  destruct st' as [r'|]; [|reflexivity].
  cbn [wf_list SectionList.count] in *.
  pose proof (wf_count_pos _ Hw'). lia.
Qed.

Lemma remove_everything_witness :
  SectionList.remove 10 mixedList (-3) 40 =
    Some (SectionList.empty, SectionList.count mixedList).
Proof.
  apply (remove_everything 10 mixedList (-3) 40).
  - apply listOf_reachable.
  - vm_compute. reflexivity.
  - vm_compute. reflexivity.
  - vm_compute. discriminate.
  - vm_compute. discriminate.
Defined.



(** ** The number of spans *)










(** ** Rebalancing, whatever the balance factor *)



(** X16: run on a branch with well-formed children, whatever its balance
    factor, the [do ... while] of [remove] ends within twice the level of a
    fresh branch over the children plus two passes; the span it ends with is
    well-formed, balanced at its root, no higher than that fresh branch, and
    has the in-order sections of the two children. *)
Theorem rebalance_loop_ends fuel c s lv l r :
  wf l -> wf r ->
  2 * (Z.max (level l) (level r) + 1) + 1 < Z.of_nat fuel ->
  exists T,
    rebalanceLoop fuel (Branch c s lv l r) = Some T /\
    wf T /\
    rootBalanced T = true /\
    sections T = sections l ++ sections r /\
    level T <= Z.max (level l) (level r) + 1.
Proof.
  intros Hl Hr Hfuel.
  destruct (rebalanceLoop_spec fuel c s lv l r Hl Hr)
    as (c2 & s2 & lv2 & l2 & r2 & Hloop & Hwf2 & Hbal2 & Hsec2 & Hc2 & Hlv2).
  { pose proof (potential_bound (createBranch l r)) as Hpb.
    cbn [createBranch level] in Hpb. lia. }
  exists (Branch c2 s2 lv2 l2 r2).
  split; [assumption|]. split; [assumption|]. split; [assumption|].
  split; assumption.
Qed.

Lemma rebalance_loop_ends_witness :
  exists T,
    rebalanceLoop 10
      (Branch 0 0 0
         (createBranch
            (createBranch (createBranch (Leaf 1 1) (Leaf 2 4)) (Leaf 1 3))
            (Leaf 3 12))
         (Leaf 1 5)) = Some T /\
    wf T /\
    rootBalanced T = true /\
    sections T =
      sections (createBranch
                  (createBranch (createBranch (Leaf 1 1) (Leaf 2 4))
                     (Leaf 1 3))
                  (Leaf 3 12)) ++ sections (Leaf 1 5) /\
    level T <=
      Z.max (level (createBranch
                      (createBranch (createBranch (Leaf 1 1) (Leaf 2 4))
                         (Leaf 1 3))
                      (Leaf 3 12))) (level (Leaf 1 5)) + 1.
Proof.
  apply (rebalance_loop_ends 10 0 0 0).
  - cbn. repeat split; try lia; try reflexivity; discriminate.
  - cbn. split; [lia | discriminate].
  - cbn. lia.
Defined.

(** ** [insert] keeps the tree balanced *)

Lemma Balanced_branch_inv c s lv l r :
  Balanced (Branch c s lv l r) ->
  Z.abs (level l - level r) <= 1 /\ Balanced l /\ Balanced r.
Proof. intro H. exact H. Qed.

Ltac bal_inv :=
  repeat match goal with
    | H : Balanced (Branch _ _ _ _ _) |- _ =>
        let Hb := fresh "Hb" in let Hbl := fresh "Hbl" in
        let Hbr := fresh "Hbr" in
        apply Balanced_branch_inv in H; destruct H as (Hb & Hbl & Hbr)
    end.

Lemma balanced_Balanced span : balanced span = true <-> Balanced span.
Proof.
  induction span as [c s | c s lv l IHl r IHr]; cbn [balanced Balanced].
  - tauto.
  - cbn [rootBalanced]. rewrite !andb_true_iff, IHl, IHr, Z.leb_le. tauto.
Qed.

Ltac grown_goal :=
  unfold grownFrom;
  cbn [updateBranch createBranch createLeaf wf Balanced level count size
       evenTop evenBelow];
  repeat match goal with
    | |- _ /\ _ => split
    | |- _ -> _ => intro
    end;
  try assumption; try reflexivity; try lia.

(** The branch above an insertion into its left child. *)
Lemma rebalance_grown_left c s lv T' S h :
  wf S -> Balanced S -> 0 <= h -> Z.abs (h - level S) <= 1 ->
  grownFrom h T' \/ (h = 0 /\ splitLeaf T') ->
  exists P',
    rebalance (Branch c s lv T' S) = Some P' /\
    grownFrom (Z.max h (level S) + 1) P'.
Proof.
  intros HwS HbS Hh Hhs HT'. pose proof (wf_level_nonneg _ HwS) as HlS.
  unfold rebalance.
  destruct HT' as [(HwT & HbT & HlT & HeT) | (-> & HwT & HbT & Hsh)].
  - destruct (level T' - level S >? 1) eqn:Hgt.
    + destruct T' as [tc ts | tc ts tlv a x]; [cbn [level] in *; lia|].
      wf_inv. bal_inv. wf_levels. cbn [level evenTop evenBelow] in *.
      destruct (level a >? level x) eqn:Hax.
      * eexists. split; [reflexivity|]. grown_goal.
      * destruct x as [xc xs | xc xs xlv b d];
          [cbn [level] in *; lia|].
        wf_inv. bal_inv. wf_levels. cbn [level evenTop] in *.
        eexists. split; [reflexivity|].
        assert (Heven : level a = xlv -> level b = level d)
          by (intros E; apply HeT; [lia | assumption]).
        grown_goal.
    + replace (level T' - level S <? -1) with false by lia.
      eexists. split; [reflexivity|]. grown_goal.
  - destruct T' as [tc ts | tc ts tlv a x]; [contradiction|].
    destruct Hsh as (Ha & Hx). wf_inv. bal_inv. wf_levels.
    cbn [level] in *.
    destruct (tlv - level S >? 1) eqn:Hgt.
    + replace (level a >? level x) with false by lia.
      destruct x as [xc xs | xc xs xlv b d]; [cbn [level] in *; lia|].
      wf_inv. bal_inv. wf_levels. cbn [level] in *.
      eexists. split; [reflexivity|]. grown_goal.
    + replace (tlv - level S <? -1) with false by lia.
      eexists. split; [reflexivity|]. grown_goal.
Qed.

(** The branch above an insertion into its right child. *)
Lemma rebalance_grown_right c s lv T' S h :
  wf S -> Balanced S -> 0 <= h -> Z.abs (h - level S) <= 1 ->
  grownFrom h T' \/ (h = 0 /\ splitLeaf T') ->
  exists P',
    rebalance (Branch c s lv S T') = Some P' /\
    grownFrom (Z.max (level S) h + 1) P'.
Proof.
  intros HwS HbS Hh Hhs HT'. pose proof (wf_level_nonneg _ HwS) as HlS.
  unfold rebalance.
  destruct HT' as [(HwT & HbT & HlT & HeT) | (-> & HwT & HbT & Hsh)].
  - replace (level S - level T' >? 1) with false by lia.
    destruct (level S - level T' <? -1) eqn:Hlt.
    + destruct T' as [tc ts | tc ts tlv x d]; [cbn [level] in *; lia|].
      wf_inv. bal_inv. wf_levels. cbn [level evenTop evenBelow] in *.
      destruct (level d >? level x) eqn:Hdx.
      * eexists. split; [reflexivity|]. grown_goal.
      * destruct x as [xc xs | xc xs xlv b e];
          [cbn [level] in *; lia|].
        wf_inv. bal_inv. wf_levels. cbn [level evenTop] in *.
        eexists. split; [reflexivity|].
        assert (Heven : xlv = level d -> level b = level e)
          by (intros E; apply HeT; [lia | assumption]).
        grown_goal.
    + eexists. split; [reflexivity|]. grown_goal.
  - destruct T' as [tc ts | tc ts tlv a x]; [contradiction|].
    destruct Hsh as (Ha & Hx). wf_inv. bal_inv. wf_levels.
    cbn [level] in *.
    replace (level S - tlv >? 1) with false by lia.
    destruct (level S - tlv <? -1) eqn:Hlt.
    + replace (level x >? level a) with true by lia.
      destruct x as [xc xs | xc xs xlv b d]; [cbn [level] in *; lia|].
      wf_inv. bal_inv. wf_levels. cbn [level] in *.
      eexists. split; [reflexivity|]. grown_goal.
    + eexists. split; [reflexivity|]. grown_goal.
Qed.

Lemma insert_grown : forall span index cnt sz,
  wf span -> Balanced span ->
  0 <= index <= count span -> 0 < cnt -> (0 <= sz)%Q ->
  exists T,
    insert span index cnt sz = Some T /\
    (grownFrom (level span) T \/ (level span = 0 /\ splitLeaf T)).
Proof.
  induction span as [c s | c s lv l IHl r IHr];
    intros index cnt sz Hwf Hbal Hi Hn Hsz.
  - destruct (insert_spec (Leaf c s) index cnt sz Hwf Hi Hn Hsz)
      as (T & HT & HwT & _).
    exists T. split; [assumption|].
    cbn [insert count level] in *.
    destruct (Qeq_bool sz (s / inject_Z c)).
    { injection HT as <-. left. unfold grownFrom. split; [assumption|].
      cbn. repeat split; intros; lia. }
    destruct (index =? 0).
    { injection HT as <-. left. unfold grownFrom. split; [assumption|].
      cbn. repeat split; intros; lia. }
    destruct (index >=? c).
    { injection HT as <-. left. unfold grownFrom. split; [assumption|].
      cbn. repeat split; intros; lia. }
    injection HT as <-. right. split; [reflexivity|].
    unfold splitLeaf. split; [assumption|]. cbn. repeat split; lia.
  - pose proof Hwf as Hwf'. apply wf_branch_inv in Hwf'.
    destruct Hwf' as (Hc & Hs & Hlv & Hwl & Hwr).
    apply Balanced_branch_inv in Hbal. destruct Hbal as (Hb & Hbl & Hbr).
    pose proof (wf_count_pos _ Hwl). pose proof (wf_count_pos _ Hwr).
    pose proof (wf_level_nonneg _ Hwl). pose proof (wf_level_nonneg _ Hwr).
    cbn [insert count level] in *.
    destruct (index <? count l) eqn:Hil.
    + destruct (IHl index cnt sz Hwl Hbl ltac:(lia) Hn Hsz)
        as (l' & Hl' & Hg).
      rewrite Hl'. cbn [bind].
      destruct (rebalance_grown_left c s lv l' r (level l) Hwr Hbr
                  ltac:(lia) Hb Hg) as (P' & HP & HgP).
      exists P'. split; [assumption|]. left. now rewrite Hlv.
    + destruct (IHr (index - count l) cnt sz Hwr Hbr ltac:(lia) Hn Hsz)
        as (r' & Hr' & Hg).
      rewrite Hr'. cbn [bind].
      destruct (rebalance_grown_right c s lv r' l (level r) Hwl Hbl
                  ltac:(lia) ltac:(lia) Hg) as (P' & HP & HgP).
      exists P'. split; [assumption|]. left. now rewrite Hlv.
Qed.

Lemma Balanced_list_iff st :
  balanced_list st = true <->
  match st with Some r => Balanced r | None => True end.
Proof.
  destruct st as [r|]; cbn [balanced_list]; [apply balanced_Balanced | tauto].
Qed.

Lemma grown_Balanced span T :
  grownFrom (level span) T \/ (level span = 0 /\ splitLeaf T) ->
  wf T /\ Balanced T /\ level T <= level span + 2.
Proof.
  intros [(Hw & Hb & Hl & _) | (Hl & Hw & Hb & Hsh)].
  - repeat split; try assumption. lia.
  - repeat split; try assumption.
    destruct T as [c s | c s lv l r]; [contradiction|].
    destruct Hsh as (H0 & H1). wf_inv. cbn [level]. lia.
Qed.

Lemma insert_facade_balanced st index cnt sz :
  wf_list st -> balanced_list st = true ->
  exists st' i,
    SectionList.insert st index cnt sz = Some (st', i) /\
    wf_list st' /\ balanced_list st' = true.
Proof.
  intros Hwf Hbal. unfold SectionList.insert.
  destruct (Qfloor cnt <=? 0) eqn:Hct; [eauto|].
  destruct st as [r|].
  - cbn [wf_list SectionList.count] in *.
    apply Balanced_list_iff in Hbal. pose proof (wf_count_pos _ Hwf).
    destruct (insert_grown r (Z.max 0 (Z.min (Qfloor index) (count r)))
                (Qfloor cnt) (Qmax 0 sz) Hwf Hbal ltac:(lia) ltac:(lia)
                (Qmax0_nonneg sz)) as (T & HT & Hg).
    rewrite HT. cbn [bind]. do 2 eexists. split; [reflexivity|].
    apply grown_Balanced in Hg. destruct Hg as (Hw & Hb & _).
    split; [assumption|]. now apply Balanced_list_iff.
  - do 2 eexists. split; [reflexivity|].
    cbn [wf_list wf createLeaf balanced_list balanced].
    repeat split; try lia.
    apply Qmult_nonneg_Z; [lia | apply Qmax0_nonneg].
Qed.

(** X17: [insert] keeps the AVL invariant: on a reachable list in which
    every branch satisfies [|left.level - right.level| <= 1], [insert]
    returns, and every branch of the new tree satisfies it too. *)
Theorem insert_keeps_balance st index cnt sz :
  reachable st ->
  balanced_list st = true ->
  exists st' i,
    SectionList.insert st index cnt sz = Some (st', i) /\
    balanced_list st' = true.
Proof.
  intros Hst Hbal. apply reachable_wf in Hst.
  destruct (insert_facade_balanced st index cnt sz Hst Hbal)
    as (st' & i & H & _ & Hb).
  eauto.
Qed.

Lemma insert_keeps_balance_witness :
  exists st' i,
    SectionList.insert mixedList 5 2 9 = Some (st', i) /\
    balanced_list st' = true.
Proof.
  apply (insert_keeps_balance mixedList 5 2 9).
  - apply listOf_reachable.
  - vm_compute. reflexivity.
Defined.

Lemma run_inserts_balanced fuel es : forall st,
  wf_list st -> balanced_list st = true ->
  forallb isInsert es = true ->
  exists st',
    run fuel es st = Some st' /\ wf_list st' /\ balanced_list st' = true.
Proof.
  induction es as [|e es IH]; intros st Hwf Hbal Hall; cbn [run].
  - eauto.
  - cbn [forallb] in Hall. apply andb_prop in Hall. destruct Hall as (He & Hes).
    destruct e as [index cnt sz | |]; try discriminate.
    cbn [apply].
    destruct (insert_facade_balanced st index cnt sz Hwf Hbal)
      as (st1 & i & H & Hw1 & Hb1).
    rewrite H. cbn [bind]. now apply IH.
Qed.

(** X18: a list made of the empty list by inserts alone, whatever their
    arguments, has every branch balanced: the sequence of inserts returns,
    and the tree it leaves satisfies the AVL invariant. *)
Theorem inserts_alone_stay_balanced fuel es :
  forallb isInsert es = true ->
  exists st,
    run fuel es SectionList.empty = Some st /\
    balanced_list st = true.
Proof.
  intros Hall.
  destruct (run_inserts_balanced fuel es SectionList.empty I eq_refl Hall)
    as (st & H & _ & Hb).
  eauto.
Qed.

Lemma inserts_alone_stay_balanced_witness :
  exists st,
    run 0 mixedEdits SectionList.empty = Some st /\
    balanced_list st = true.
Proof.
  apply (inserts_alone_stay_balanced 0 mixedEdits). reflexivity.
Defined.

(** ** Offsets after an edit *)








